(** * videoapp: the dual-buffer playback engine, the simple player and the
    video store, embedded as state-passing functions.

  Sources embedded here:
  - [Simple]  : src/App.tsx (the two-button "Flow Setup" player);
  - [Engine]  : the "Director Suite" application (startExperience,
                handleGlobalTap, handleUpload, loadSavedAssets);
  - [Store]   : the zustand video store (loadVideos, addVideo,
                removeVideo, getVideoByStep).

  Asynchronous handlers are modelled in a small state-and-exception monad:
  an [await] of a rejected promise is a [Thrown] completion, which skips
  the rest of the handler unless a try/catch intercepts it.  The outcome
  of every awaited external call (expo-av, expo-file-system, AsyncStorage)
  is an input of the handler, so both the resolving and the rejecting
  continuation of each [await] are covered. *)

From Stdlib Require Import List Arith ZArith Bool String Ascii Lia.
From Stdlib Require Import Sorting.Sorted Sorting.Permutation DecimalString.
Import ListNotations.

Local Open Scope list_scope.

(* ------------------------------------------------------------------ *)
(** ** JavaScript values used by all three sources *)

Module Js.

(** [a % b] on non-negative integers; [None] is NaN, the result of a zero
    divisor. *)
Definition js_mod (a b : nat) : option nat :=
  if b =? 0 then None else Some (a mod b).

(** [arr[i] = v] on a copy of [arr]: inside the array the element is
    replaced, past its end the array is extended and the skipped
    positions are holes ([None], read back as undefined). *)
Fixpoint js_assign {T : Type} (arr : list (option T)) (i : nat) (v : T)
  : list (option T) :=
  match i, arr with
  | 0, [] => [Some v]
  | 0, _ :: rest => Some v :: rest
  | S j, [] => None :: js_assign [] j v
  | S j, x :: rest => x :: js_assign rest j v
  end.

(** Truthiness of a [string | null | undefined]: null, undefined and the
    empty string are falsy. *)
Definition truthy (u : option string) : bool :=
  match u with
  | None => false
  | Some s => negb (String.eqb s EmptyString)
  end.

(** Decimal rendering of a number inside a template string. *)
Definition show_nat (n : nat) : string :=
  NilZero.string_of_uint (Nat.to_uint n).

Definition show_Z (z : Z) : string :=
  NilZero.string_of_int (Z.to_int z).

(** [arr.slice().sort(cmp)] for a consistent comparator: the sort is stable
    (ECMAScript 2019), so its result is the one of a stable insertion
    sort; [x] goes before [y] when [cmp x y <= 0]. *)
Fixpoint js_insert {T : Type} (cmp : T -> T -> Z) (x : T) (l : list T)
  : list T :=
  match l with
  | [] => [x]
  | y :: rest =>
      if (cmp x y <=? 0)%Z then x :: y :: rest else y :: js_insert cmp x rest
  end.

Definition js_sort {T : Type} (cmp : T -> T -> Z) (l : list T) : list T :=
  fold_right (js_insert cmp) [] l.

(** The array with position [i] replaced (unchanged when [i] is past the
    end). *)
Fixpoint update_nth {T : Type} (i : nat) (v : T) (l : list T) : list T :=
  match i, l with
  | _, [] => []
  | 0, _ :: rest => v :: rest
  | S j, x :: rest => x :: update_nth j v rest
  end.

(** How a statement (or an awaited call) completes. *)
Inductive Completion (T : Type) : Type :=
| Normal (v : T)
| Thrown.
Arguments Normal {T} v.
Arguments Thrown {T}.

(** Handlers over a state [S]. *)
Definition M (S T : Type) : Type := S -> Completion T * S.

Definition ret {S T} (v : T) : M S T := fun s => (Normal v, s).

Definition bind {S T U} (m : M S T) (k : T -> M S U) : M S U :=
  fun s =>
    match m s with
    | (Normal v, s1) => k v s1
    | (Thrown, s1) => (Thrown, s1)
    end.

Definition throw {S T} : M S T := fun s => (Thrown, s).

Definition modify {S} (f : S -> S) : M S unit := fun s => (Normal tt, f s).

(** [try { body } catch (e) { handler } finally { fin }]. *)
Definition try_catch_finally {S} (body handler fin : M S unit) : M S unit :=
  fun s =>
    match body s with
    | (Normal _, s1) => fin s1
    | (Thrown, s1) =>
        match handler s1 with
        | (Normal _, s2) => fin s2
        | (Thrown, s2) =>
            match fin s2 with
            | (_, s3) => (Thrown, s3)
            end
        end
    end.

(** [try { body } catch (e) { handler }]. *)
Definition try_catch {S} (body handler : M S unit) : M S unit :=
  try_catch_finally body handler (ret tt).

Definition run {S T} (m : M S T) (s : S) : S := snd (m s).

End Js.

Import Js.

Declare Scope js_scope.
Delimit Scope js_scope with js.
Notation "x <- m ;; k" := (bind m (fun x => k))
(at level 61, m at next level, right associativity) : js_scope.
Notation "m ;; k" := (bind m (fun _ => k))
(at level 61, right associativity) : js_scope.

(* ------------------------------------------------------------------ *)
(** ** The dual-buffer engine ("Director Suite") *)

Module Engine.

Definition STEP_COUNT : nat := 5.

Record VideoStep := mkStep { id : nat; uri : option string }.

Inductive Player := A | B.

Definition other (p : Player) : Player :=
  match p with A => B | B => A end.

Definition Player_eqb (p q : Player) : bool :=
  match p, q with A, A | B, B => true | _, _ => false end.

(** What a video surface holds.  The index is the step whose uri was
    handed to [loadAsync]. *)
Inductive Slot :=
| Unloaded
| Loading (clip : nat)   (* loadAsync issued, completion not observed *)
| Ready (clip : nat)     (* loaded, shouldPlay = false *)
| Playing (clip : nat).  (* loaded, shouldPlay = true *)

Definition bound (sl : Slot) : option nat :=
  match sl with
  | Unloaded => None
  | Loading i | Ready i | Playing i => Some i
  end.

Definition is_ready (sl : Slot) : bool :=
  match sl with Ready _ => true | _ => false end.

(** The expo-av calls a surface accepts. *)
Inductive Cmd :=
| CLoad (p : Player) (clip : nat) (src : option string) (shouldPlay : bool)
| CPlay (p : Player)
| CStop (p : Player)
| CUnload (p : Player).

(** Observable history of a surface call: it is issued, and when it is
    awaited its promise resolves or rejects before the handler goes on. *)
Inductive Event :=
| Call (c : Cmd)
| Done (c : Cmd)
| Failed (c : Cmd).

Inductive AlertMsg :=
| StepsIncomplete   (* Alert.alert("Steps Incomplete", ...) *)
| EngineError       (* Alert.alert("Engine Error", ...) *)
| UploadError.      (* Alert.alert("Upload Error", ...) *)

(** The component's state cells and refs, the document directory of the
    device, and two logs kept for the statements below: the surface calls
    made and the alerts raised.  [isAppReady] is never read or written by
    the component and is left out. *)
Record App := mkApp {
  documentDirectory : string;        (* FileSystem.documentDirectory *)
  steps : list VideoStep;
  setupMode : bool;
  isLoading : bool;
  currentIndex : nat;
  activePlayer : Player;
  isTransitioning : bool;            (* isTransitioning.current *)
  timers : nat;                      (* pending setTimeout callbacks *)
  playerA : option Slot;             (* playerA.current *)
  playerB : option Slot;             (* playerB.current *)
  trace : list Event;
  alerts : list AlertMsg
}.

Definition VIDEO_DIR (s : App) : string :=
  (documentDirectory s ++ "videos/")%string.

(** Field updates. *)
Definition with_steps v s :=
  mkApp (documentDirectory s) v (setupMode s) (isLoading s) (currentIndex s)
    (activePlayer s) (isTransitioning s) (timers s) (playerA s) (playerB s)
    (trace s) (alerts s).
Definition with_setupMode v s :=
  mkApp (documentDirectory s) (steps s) v (isLoading s) (currentIndex s)
    (activePlayer s) (isTransitioning s) (timers s) (playerA s) (playerB s)
    (trace s) (alerts s).
Definition with_isLoading v s :=
  mkApp (documentDirectory s) (steps s) (setupMode s) v (currentIndex s)
    (activePlayer s) (isTransitioning s) (timers s) (playerA s) (playerB s)
    (trace s) (alerts s).
Definition with_currentIndex v s :=
  mkApp (documentDirectory s) (steps s) (setupMode s) (isLoading s) v
    (activePlayer s) (isTransitioning s) (timers s) (playerA s) (playerB s)
    (trace s) (alerts s).
Definition with_activePlayer v s :=
  mkApp (documentDirectory s) (steps s) (setupMode s) (isLoading s)
    (currentIndex s) v (isTransitioning s) (timers s) (playerA s)
    (playerB s) (trace s) (alerts s).
Definition with_isTransitioning v s :=
  mkApp (documentDirectory s) (steps s) (setupMode s) (isLoading s)
    (currentIndex s) (activePlayer s) v (timers s) (playerA s) (playerB s)
    (trace s) (alerts s).
Definition with_timers v s :=
  mkApp (documentDirectory s) (steps s) (setupMode s) (isLoading s)
    (currentIndex s) (activePlayer s) (isTransitioning s) v (playerA s)
    (playerB s) (trace s) (alerts s).
Definition with_playerA v s :=
  mkApp (documentDirectory s) (steps s) (setupMode s) (isLoading s)
    (currentIndex s) (activePlayer s) (isTransitioning s) (timers s) v
    (playerB s) (trace s) (alerts s).
Definition with_playerB v s :=
  mkApp (documentDirectory s) (steps s) (setupMode s) (isLoading s)
    (currentIndex s) (activePlayer s) (isTransitioning s) (timers s)
    (playerA s) v (trace s) (alerts s).
Definition with_trace v s :=
  mkApp (documentDirectory s) (steps s) (setupMode s) (isLoading s)
    (currentIndex s) (activePlayer s) (isTransitioning s) (timers s)
    (playerA s) (playerB s) v (alerts s).
Definition with_alerts v s :=
  mkApp (documentDirectory s) (steps s) (setupMode s) (isLoading s)
    (currentIndex s) (activePlayer s) (isTransitioning s) (timers s)
    (playerA s) (playerB s) (trace s) v.

(** [playerA.current] / [playerB.current]. *)
Definition current (p : Player) (s : App) : option Slot :=
  match p with A => playerA s | B => playerB s end.

Definition with_current (p : Player) (v : option Slot) (s : App) : App :=
  match p with A => with_playerA v s | B => with_playerB v s end.

Definition log (e : Event) : M App unit :=
  modify (fun s => with_trace (trace s ++ [e]) s).

Definition alert (a : AlertMsg) : M App unit :=
  modify (fun s => with_alerts (alerts s ++ [a]) s).

Local Open Scope js_scope.

(** [await player.current?.loadAsync({ uri: steps[i].uri! }, { shouldPlay }, false)].
    On a null ref the optional chain short-circuits: nothing is
    evaluated, nothing is called.  Otherwise [steps[i]] is read (a
    TypeError when it is undefined), the call is issued, and the handler
    resumes when the promise settles; [ok] tells how it settles. *)
Definition await_loadAsync (p : Player) (i : nat) (shouldPlay ok : bool)
  : M App unit :=
  fun s =>
    match current p s with
    | None => (Normal tt, s)
    | Some _ =>
        match nth_error (steps s) i with
        | None => (Thrown, s)
        | Some st =>
            let c := CLoad p i (uri st) shouldPlay in
            if ok then
              (log (Call c) ;;
               modify (with_current p
                         (Some (if shouldPlay then Playing i else Ready i))) ;;
               log (Done c)) s
            else
              (log (Call c) ;; log (Failed c) ;; throw) s
        end
    end.

(** [player.current?.loadAsync({ uri: steps[i].uri! }, { shouldPlay: false }, false)]
    without [await]: the call is issued and the handler goes on at once;
    the surface is left loading. *)
Definition loadAsync_detached (p : Player) (i : nat) : M App unit :=
  fun s =>
    match current p s with
    | None => (Normal tt, s)
    | Some _ =>
        match nth_error (steps s) i with
        | None => (Thrown, s)
        | Some st =>
            (log (Call (CLoad p i (uri st) false)) ;;
             modify (with_current p (Some (Loading i)))) s
        end
    end.

(** What a resolved [playAsync] does to a surface: a loaded surface
    plays, anything else keeps its state. *)
Definition played (sl : Slot) : Slot :=
  match sl with
  | Ready i | Playing i => Playing i
  | Loading i => Loading i
  | Unloaded => Unloaded
  end.

(** [await player.current?.playAsync()]. *)
Definition await_playAsync (p : Player) (ok : bool) : M App unit :=
  fun s =>
    match current p s with
    | None => (Normal tt, s)
    | Some sl =>
        if ok then
          (log (Call (CPlay p)) ;;
           modify (with_current p (Some (played sl))) ;;
           log (Done (CPlay p))) s
        else
          (log (Call (CPlay p)) ;; log (Failed (CPlay p)) ;; throw) s
    end.

(** [await player.current?.unloadAsync()]. *)
Definition await_unloadAsync (p : Player) (ok : bool) : M App unit :=
  fun s =>
    match current p s with
    | None => (Normal tt, s)
    | Some _ =>
        if ok then
          (log (Call (CUnload p)) ;;
           modify (with_current p (Some Unloaded)) ;;
           log (Done (CUnload p))) s
        else
          (log (Call (CUnload p)) ;; log (Failed (CUnload p)) ;; throw) s
    end.

(** Outcomes of the awaited calls of one handler run. *)
Record StartEnv := mkStartEnv { loadA_ok : bool; loadB_ok : bool }.
Record TapEnv := mkTapEnv { play_ok : bool; unload_ok : bool }.

(** [startExperience]. *)
Definition startExperience (env : StartEnv) : M App unit :=
  fun s =>
    if existsb (fun st => negb (truthy (uri st))) (steps s) then
      alert StepsIncomplete s
    else
      (modify (with_isLoading true) ;;
       try_catch_finally
         (await_loadAsync A 0 true (loadA_ok env) ;;
          await_loadAsync B 1 false (loadB_ok env) ;;
          modify (with_setupMode false))
         (alert EngineError)
         (modify (with_isLoading false))) s.

(** [setTimeout(() => { isTransitioning.current = false; }, 400)]. *)
Definition setTimeout_release : M App unit :=
  modify (fun s => with_timers (S (timers s)) s).

(** [handleGlobalTap].  [currentIndex], [activePlayer] and [steps] are
    the values the callback closed over, read from the state it is
    started in.  [%] is written [mod]: the two agree for a divisor that is
    not 0, and [steps.length] never is (it is [STEP_COUNT] in every state
    of the application). *)
Definition handleGlobalTap (env : TapEnv) : M App unit :=
  fun s =>
    if isTransitioning s then (Normal tt, s)
    else
      let nextIndex := (currentIndex s + 1) mod List.length (steps s) in
      let preloadIndex := (nextIndex + 1) mod List.length (steps s) in
      (modify (with_isTransitioning true) ;;
       match activePlayer s with
       | A =>
           await_playAsync B (play_ok env) ;;
           modify (with_activePlayer B) ;;
           await_unloadAsync A (unload_ok env) ;;
           loadAsync_detached A preloadIndex
       | B =>
           await_playAsync A (play_ok env) ;;
           modify (with_activePlayer A) ;;
           await_unloadAsync B (unload_ok env) ;;
           loadAsync_detached B preloadIndex
       end ;;
       modify (with_currentIndex nextIndex) ;;
       setTimeout_release) s.

(** [newSteps[index].uri = value]: a TypeError ([None]) when
    [newSteps[index]] is undefined.  The step objects are shared between
    the copied array and the state, so the write is to the state's own
    step. *)
Definition set_uri (i : nat) (value : string) (l : list VideoStep)
  : option (list VideoStep) :=
  match nth_error l i with
  | None => None
  | Some st => Some (update_nth i (mkStep (id st) (Some value)) l)
  end.

Inductive PickResult :=
| Canceled
| Picked (source : string).

(** [handleUpload(index)]; [copy_ok] is the outcome of
    [FileSystem.copyAsync]. *)
Definition handleUpload (index : nat) (result : PickResult) (copy_ok : bool)
  : M App unit :=
  fun s =>
    match result with
    | Canceled => (Normal tt, s)
    | Picked _ =>
        let destination :=
          (VIDEO_DIR s ++ "step_" ++ show_nat index ++ ".mp4")%string in
        try_catch
          (if copy_ok then
             match set_uri index destination (steps s) with
             | Some l => modify (with_steps l)
             | None => throw
             end
           else throw)
          (alert UploadError) s
    end.

(** A directory entry with what [parseInt(file.split('_')[1])] makes of
    its name ([None] is NaN). *)
Record DirEntry := mkEntry { name : string; parsed : option Z }.

(** The [forEach] of [loadSavedAssets] over the shared step objects. *)
Fixpoint assign_saved (dir : string) (files : list DirEntry)
  (l : list VideoStep) : Completion unit * list VideoStep :=
  match files with
  | [] => (Normal tt, l)
  | f :: rest =>
      match parsed f with
      | None => assign_saved dir rest l
      | Some z =>
          if (z <? Z.of_nat STEP_COUNT)%Z then
            if (z <? 0)%Z then (Thrown, l)
            else
              match set_uri (Z.to_nat z) (dir ++ name f)%string l with
              | Some l' => assign_saved dir rest l'
              | None => (Thrown, l)
              end
          else assign_saved dir rest l
      end
  end.

(** [loadSavedAssets]; [read_ok] is the outcome of
    [FileSystem.readDirectoryAsync].  A throw inside the loop is caught and
    logged; the writes made before it stay, the objects being shared. *)
Definition loadSavedAssets (read_ok : bool) (files : list DirEntry)
  : M App unit :=
  fun s =>
    if read_ok then
      (Normal tt, with_steps (snd (assign_saved (VIDEO_DIR s) files (steps s))) s)
    else (Normal tt, s).

(** The state of a freshly started application:
    [Array.from({ length: STEP_COUNT }, (_, i) => ({ id: i, uri: null }))],
    setup mode, both refs null. *)
Definition initial (dir : string) : App :=
  mkApp dir (map (fun i => mkStep i None) (seq 0 STEP_COUNT))
    true false 0 A false 0 None None [] [].

(** What rendering does to the refs.  Both are created null
    ([useRef<Video>(null)]).  The two [<Video ref=...>] elements stand only
    in the playback branch of the render function; while [setupMode] is
    set the function returns the setup screen before reaching them.  A ref
    holds its element from the moment the element is mounted (a [<Video>]
    without [source] has nothing loaded) and is null while the element is
    not mounted. *)
Definition mounted (o : option Slot) : option Slot :=
  match o with
  | None => Some Unloaded
  | Some sl => Some sl
  end.

Definition commit (s : App) : App :=
  if setupMode s then with_playerA None (with_playerB None s)
  else with_playerA (mounted (playerA s)) (with_playerB (mounted (playerB s)) s).

(** The callback registered by [setTimeout] runs. *)
Definition timeout (s : App) : App :=
  match timers s with
  | 0 => s
  | S n => with_timers n (with_isTransitioning false s)
  end.

(** A detached [loadAsync] settles. *)
Definition settle (p : Player) (ok : bool) (s : App) : App :=
  match current p s with
  | Some (Loading i) => with_current p (Some (if ok then Ready i else Unloaded)) s
  | _ => s
  end.

(** States the application goes through.  The launch button is on the
    setup screen and is replaced by a spinner while [isLoading]; the tap
    target is the playback screen.  Uploads, the timer and the settling of
    a detached load may come at any time. *)
Inductive Reach (dir : string) : App -> Prop :=
| R_initial : Reach dir (initial dir)
| R_saved s ok files :
    Reach dir s -> Reach dir (run (loadSavedAssets ok files) s)
| R_upload s i res ok :
    Reach dir s -> Reach dir (run (handleUpload i res ok) s)
| R_start s env :
    Reach dir s -> setupMode s = true -> isLoading s = false ->
    Reach dir (commit (run (startExperience env) s))
| R_tap s env :
    Reach dir s -> setupMode s = false ->
    Reach dir (run (handleGlobalTap env) s)
| R_timeout s :
    Reach dir s -> Reach dir (timeout s)
| R_settle s p ok :
    Reach dir s -> Reach dir (settle p ok s).

(** The pairing the spec asks of the engine: the active surface holds the
    clip at [currentIndex], the other one holds or is loading the next
    clip.  The standby surface is the one [activePlayer] does not name. *)
Definition standbyPlayer (s : App) : Player := other (activePlayer s).

Definition EngineInv (s : App) : Prop :=
  activePlayer s <> standbyPlayer s /\
  option_map bound (current (activePlayer s) s) = Some (Some (currentIndex s)) /\
  option_map bound (current (standbyPlayer s) s) =
    Some (Some ((currentIndex s + 1) mod List.length (steps s))).

(** One advance that is allowed to finish: the tap, then the settle
    timer. *)
Definition advance (env : TapEnv) (s : App) : App :=
  timeout (run (handleGlobalTap env) s).

Fixpoint advances (n : nat) (env : TapEnv) (s : App) : App :=
  match n with
  | 0 => s
  | S k => advances k env (advance env s)
  end.

Definition all_ok : TapEnv := mkTapEnv true true.

(** The events a handler run added to the history. *)
Definition emitted (s s' : App) : list Event :=
  skipn (List.length (trace s)) (trace s').

(** [steps[i]?.uri], the source a load of step [i] is given. *)
Definition uri_at (s : App) (i : nat) : option string :=
  match nth_error (steps s) i with
  | Some st => uri st
  | None => None
  end.

(** The two indices [handleGlobalTap] computes. *)
Definition nextIndex (s : App) : nat :=
  (currentIndex s + 1) mod List.length (steps s).

Definition preloadIndex (s : App) : nat :=
  (nextIndex s + 1) mod List.length (steps s).

(** An event that starts tearing down or reusing surface [p]. *)
Definition reclaims (p : Player) (e : Event) : bool :=
  match e with
  | Call (CStop q) | Call (CUnload q) | Call (CLoad q _ _ _) => Player_eqb p q
  | _ => false
  end.

Definition is_play_call (e : Event) : bool :=
  match e with
  | Call (CPlay _) => true
  | _ => false
  end.

Definition is_stop_call (e : Event) : bool :=
  match e with
  | Call (CStop _) => true
  | _ => false
  end.

(** Every step has a uri: the test [startExperience] starts with. *)
Definition complete (s : App) : bool :=
  negb (existsb (fun st => negb (truthy (uri st))) (steps s)).

(** The part of [handleGlobalTap] between taking the lock and updating
    [currentIndex]. *)
Definition swap_body (env : TapEnv) (act : Player) (preload : nat)
  : M App unit :=
  match act with
  | A =>
      bind (await_playAsync B (play_ok env)) (fun _ =>
      bind (modify (with_activePlayer B)) (fun _ =>
      bind (await_unloadAsync A (unload_ok env)) (fun _ =>
      loadAsync_detached A preload)))
  | B =>
      bind (await_playAsync A (play_ok env)) (fun _ =>
      bind (modify (with_activePlayer A)) (fun _ =>
      bind (await_unloadAsync B (unload_ok env)) (fun _ =>
      loadAsync_detached B preload)))
  end.

(** A handler keeps the value of [f]. *)
Definition keeps {T V : Type} (f : App -> V) (m : M App T) : Prop :=
  forall s, f (snd (m s)) = f s.

(** The events of a tap on an unlocked engine with both surfaces mounted,
    by the outcome of its awaited calls. *)
Definition tap_events (env : TapEnv) (s : App) : list Event :=
  let act := activePlayer s in
  let stb := standbyPlayer s in
  if play_ok env then
    if unload_ok env then
      match nth_error (steps s) (preloadIndex s) with
      | Some st =>
          [Call (CPlay stb); Done (CPlay stb);
           Call (CUnload act); Done (CUnload act);
           Call (CLoad act (preloadIndex s) (uri st) false)]
      | None =>
          [Call (CPlay stb); Done (CPlay stb);
           Call (CUnload act); Done (CUnload act)]
      end
    else
      [Call (CPlay stb); Done (CPlay stb);
       Call (CUnload act); Failed (CUnload act)]
  else [Call (CPlay stb); Failed (CPlay stb)].

(** The active surface after [k] exchanges of the roles. *)
Definition flips (k : nat) (p : Player) : Player :=
  if Nat.even k then p else other p.

(** On the setup screen the refs are null and playback has not moved. *)
Definition OnSetup (s : App) : Prop :=
  playerA s = None /\ playerB s = None /\
  currentIndex s = 0 /\ activePlayer s = A.

(** [steps.every(s => s.uri)], the positive form of [complete]. *)
Definition all_truthy (l : list VideoStep) : bool :=
  forallb (fun st => truthy (uri st)) l.

(** Sample runs: five uploads on a fresh application, then the launch
    button. *)
Definition uploaded (dir : string) : App :=
  fold_left
    (fun s i => run (handleUpload i (Picked "picked.mov") true) s)
    (seq 0 STEP_COUNT) (initial dir).

Definition launched (dir : string) : App :=
  commit (run (startExperience (mkStartEnv true true)) (uploaded dir)).

(** A playback state in which the pairing holds, reached from the launch
    by two advances whose calls resolve, each followed by the completion
    of the load it started: A plays clip 2, B holds clip 3. *)
Definition primed (dir : string) : App :=
  settle B true
    (advance all_ok (settle A true (advance all_ok (launched dir)))).

(** Four steps of which step 2 has no uri. *)
Definition four_steps_one_missing : App :=
  mkApp "file:///data/"
    [mkStep 0 (Some "file:///data/videos/step_0.mp4"%string);
     mkStep 1 (Some "file:///data/videos/step_1.mp4"%string);
     mkStep 2 None;
     mkStep 3 (Some "file:///data/videos/step_3.mp4"%string)]
    true false 0 A false 0 (Some Unloaded) (Some Unloaded) [] [].

(** *** File names read back by [loadSavedAssets] *)

(** [s.split(sep)] for a one-character separator.  Strings are sequences
    of code units below 256. *)
Fixpoint split_on (sep : ascii) (s acc : string) : list string :=
  match s with
  | EmptyString => [acc]
  | String c rest =>
      if Ascii.eqb c sep then acc :: split_on sep rest EmptyString
      else split_on sep rest (acc ++ String c EmptyString)%string
  end.

(** The white space [parseInt] skips, among the code units below 256:
    TAB, LF, VT, FF, CR, SP and NBSP. *)
Definition is_space (c : ascii) : bool :=
  let n := nat_of_ascii c in
  (9 <=? n) && (n <=? 13) || (n =? 32) || (n =? 160).

Fixpoint skip_spaces (s : string) : string :=
  match s with
  | String c rest => if is_space c then skip_spaces rest else s
  | EmptyString => s
  end.

(** The value of a digit character in bases up to 16. *)
Definition digit_of (c : ascii) : option Z :=
  let n := Z.of_nat (nat_of_ascii c) in
  if (48 <=? n)%Z && (n <=? 57)%Z then Some (n - 48)%Z
  else if (97 <=? n)%Z && (n <=? 102)%Z then Some (n - 87)%Z
  else if (65 <=? n)%Z && (n <=? 70)%Z then Some (n - 55)%Z
  else None.

(** The number written by the longest prefix of digits of the radix;
    [None] when there is no such digit. *)
Fixpoint leading_number (radix : Z) (s : string) (acc : option Z) : option Z :=
  match s with
  | EmptyString => acc
  | String c rest =>
      match digit_of c with
      | Some d =>
          if (d <? radix)%Z then
            leading_number radix rest
              (Some (match acc with
                     | Some a => a * radix + d
                     | None => d
                     end)%Z)
          else acc
      | None => acc
      end
  end.

Definition unsigned_number (s : string) : option Z :=
  match s with
  | String "0" (String "x" rest) | String "0" (String "X" rest) =>
      leading_number 16 rest None
  | _ => leading_number 10 s None
  end.

(** [parseInt(s)] with no radix given; [None] is NaN. *)
Definition js_parseInt (s : string) : option Z :=
  match skip_spaces s with
  | String "-" rest => option_map Z.opp (unsigned_number rest)
  | String "+" rest => unsigned_number rest
  | rest => unsigned_number rest
  end.

(** [parseInt(file.split('_')[1])]: a name without underscore has no
    second part, and [parseInt(undefined)] is NaN. *)
Definition parse_index (file : string) : option Z :=
  match nth_error (split_on "_" file EmptyString) 1 with
  | Some part => js_parseInt part
  | None => None
  end.

Definition entry_of (file : string) : DirEntry :=
  mkEntry file (parse_index file).

(** [loadSavedAssets] on the names [readDirectoryAsync] returns. *)
Definition loadSavedFiles (read_ok : bool) (files : list string)
  : M App unit :=
  loadSavedAssets read_ok (map entry_of files).

(** The name of the file [handleUpload(index)] writes under [VIDEO_DIR]. *)
Definition saved_name (index : nat) : string :=
  ("step_" ++ show_nat index ++ ".mp4")%string.

(** *** What happens to the playback screen *)

Inductive Input :=
| Tap (env : TapEnv)
| TimerFires
| LoadSettles (p : Player) (ok : bool).

Definition react (s : App) (i : Input) : App :=
  match i with
  | Tap env => run (handleGlobalTap env) s
  | TimerFires => timeout s
  | LoadSettles p ok => settle p ok s
  end.

Definition reacts (inputs : list Input) (s : App) : App :=
  fold_left react inputs s.

(** The clip a surface shows or is about to show. *)
Definition clip_of (p : Player) (s : App) : option nat :=
  match current p s with
  | Some sl => bound sl
  | None => None
  end.

(** A saved file the scan of [loadSavedAssets] passes over: its index is
    NaN or not below [STEP_COUNT]. *)
Definition skipped (file : string) : Prop :=
  match parse_index file with
  | None => True
  | Some z => (Z.of_nat STEP_COUNT <= z)%Z
  end.

(** The index stays below [STEP_COUNT]; at most one release timer is
    pending, and only while the lock is held. *)
Definition SessionInv (s : App) : Prop :=
  currentIndex s < STEP_COUNT /\
  timers s <= 1 /\
  (isTransitioning s = false -> timers s = 0).

(** A handler that runs to its end and keeps the steps whenever step
    [pre] exists. *)
Definition safe (pre : nat) (m : M App unit) : Prop :=
  forall s,
    nth_error (steps s) pre <> None ->
    fst (m s) = Normal tt /\ steps (snd (m s)) = steps s.

(** A state nothing moves any more: the lock is held and no timer is
    left to release it. *)
Definition Frozen (s : App) : Prop :=
  isTransitioning s = true /\ timers s = 0.

End Engine.

(* ------------------------------------------------------------------ *)
(** ** The simple player (src/App.tsx) *)

Module Simple.

Inductive Player := A | B.

Inductive PickResult :=
| Canceled
| Picked (source : string).

(** [index] is a JavaScript number: [None] is NaN. *)
Record App := mkApp {
  documentDirectory : string;
  uris : list (option string);          (* an array that may have holes *)
  playing : bool;
  index : option nat;
  isReady : bool;
  activePlayer : Player;
  vids : option (list (option string))  (* AsyncStorage item 'vids' *)
}.

Definition with_uris v s :=
  mkApp (documentDirectory s) v (playing s) (index s) (isReady s)
    (activePlayer s) (vids s).
Definition with_playing v s :=
  mkApp (documentDirectory s) (uris s) v (index s) (isReady s)
    (activePlayer s) (vids s).
Definition with_index v s :=
  mkApp (documentDirectory s) (uris s) (playing s) v (isReady s)
    (activePlayer s) (vids s).
Definition with_activePlayer v s :=
  mkApp (documentDirectory s) (uris s) (playing s) (index s) (isReady s)
    v (vids s).
Definition with_vids v s :=
  mkApp (documentDirectory s) (uris s) (playing s) (index s) (isReady s)
    (activePlayer s) v.

Definition initial (dir : string) : App :=
  mkApp dir [] false (Some 0) false A None.

Local Open Scope js_scope.

(** [pickVideo(i)]; [copy_ok] and [store_ok] are the outcomes of
    [FileSystem.copyAsync] and [AsyncStorage.setItem].  [seen] is the [uris]
    the handler closed over, the array of the render whose button was
    pressed: the handler copies it after the picker and the file copy have
    been awaited, when the state may have moved on. *)
Definition pickVideo (seen : list (option string)) (i : nat)
  (result : PickResult) (copy_ok store_ok : bool) : M App unit :=
  fun s =>
    match result with
    | Canceled => (Normal tt, s)
    | Picked _ =>
        let path :=
          (documentDirectory s ++ "vid" ++ show_nat i ++ ".mp4")%string in
        if copy_ok then
          let newUris := js_assign seen i path in
          (modify (with_uris newUris) ;;
           if store_ok then modify (with_vids (Some newUris)) else throw) s
        else (Thrown, s)
    end.

(** [(n + 1) % length] on a number that may already be NaN. *)
Definition succ_mod (n : option nat) (len : nat) : option nat :=
  match n with
  | None => None
  | Some k => js_mod (k + 1) len
  end.

(** [next]. *)
Definition next (s : App) : App :=
  with_activePlayer (match activePlayer s with A => B | B => A end)
    (with_index (succ_mod (index s) (List.length (uris s))) s).

(** The index of the clip given to the hidden buffer player when the
    playing screen is rendered: [(index + 1) % uris.length]. *)
Definition bufferIndex (s : App) : option nat :=
  succ_mod (index s) (List.length (uris s)).

(** The start button is rendered only when [uris.length >= 2]. *)
Definition startShown (s : App) : bool := 2 <=? List.length (uris s).

Definition start (s : App) : App := with_playing true s.

(** States of the application.  An upload is started on the setup screen
    in some state [s0] and completes in a later state [s]; the start button
    is on the setup screen, [next] is the press handler of the playing
    screen. *)
Inductive Reach (dir : string) : App -> Prop :=
| R_initial : Reach dir (initial dir)
| R_pick s0 s i res ok1 ok2 :
    Reach dir s0 -> playing s0 = false -> Reach dir s ->
    Reach dir (run (pickVideo (uris s0) i res ok1 ok2) s)
| R_start s :
    Reach dir s -> playing s = false -> startShown s = true ->
    Reach dir (start s)
| R_next s :
    Reach dir s -> playing s = true -> Reach dir (next s).

(** Sample run: steps 1 and 2 uploaded one after the other, then the start
    button. *)
Definition two_picked (dir : string) : App :=
  let s1 := run (pickVideo [] 0 (Picked "a.mov") true true) (initial dir) in
  run (pickVideo (uris s1) 1 (Picked "b.mov") true true) s1.

Definition started (dir : string) : App := start (two_picked dir).

(** [arr[k]]: undefined ([None]) on a hole and past the end. *)
Definition js_get (arr : list (option string)) (k : nat) : option string :=
  match nth_error arr k with
  | Some (Some v) => Some v
  | _ => None
  end.

(** The [source] uri given to the visible player, [uris[index]], and to
    the hidden buffer player, [uris[(index + 1) % uris.length]]. *)
Definition visibleSource (s : App) : option string :=
  match index s with
  | Some k => js_get (uris s) k
  | None => None
  end.

Definition bufferSource (s : App) : option string :=
  match bufferIndex s with
  | Some k => js_get (uris s) k
  | None => None
  end.

(** The path [pickVideo(i)] copies the picked file to. *)
Definition pathOf (s : App) (i : nat) : string :=
  (documentDirectory s ++ "vid" ++ show_nat i ++ ".mp4")%string.

(** [k] presses on the playing screen. *)
Fixpoint presses (k : nat) (s : App) : App :=
  match k with
  | 0 => s
  | S j => presses j (next s)
  end.

Definition flip (p : Player) : Player :=
  match p with A => B | B => A end.

(** The number of clips uploaded: the positions of [uris] that hold a
    path (are not holes). *)
Definition uploadedClips (s : App) : nat :=
  List.length
    (filter (fun u => match u with Some _ => true | None => false end)
       (uris s)).

End Simple.

(* ------------------------------------------------------------------ *)
(** ** The video store *)

Module Store.

Record VideoStep := mkVideo {
  id : string;
  stepNumber : Z;
  uri : string;
  originalName : string
}.

(** The store and the part of the device it reads and writes: the files
    under the document directory and the AsyncStorage item
    [video_steps_data]. *)
Record VideoStore := mkStore {
  videos : list VideoStep;
  isLoading : bool;
  documentDirectory : string;
  files : list string;
  stored : option (list VideoStep)
}.

Definition VIDEO_DIR (s : VideoStore) : string :=
  (documentDirectory s ++ "videos/")%string.

Definition with_videos v s :=
  mkStore v (isLoading s) (documentDirectory s) (files s) (stored s).
Definition with_isLoading v s :=
  mkStore (videos s) v (documentDirectory s) (files s) (stored s).
Definition with_files v s :=
  mkStore (videos s) (isLoading s) (documentDirectory s) v (stored s).
Definition with_stored v s :=
  mkStore (videos s) (isLoading s) (documentDirectory s) (files s) v.

Definition initial (dir : string) : VideoStore :=
  mkStore [] true dir [] None.

(** [name.split('.').pop()]: what follows the last dot, the whole name when
    it has none. *)
Fixpoint last_segment (name acc : string) : string :=
  match name with
  | EmptyString => acc
  | String c rest =>
      if Ascii.eqb c "."%char then last_segment rest EmptyString
      else last_segment rest (acc ++ String c EmptyString)%string
  end.

(** [originalName.split('.').pop() || 'mp4']. *)
Definition extension_of (originalName : string) : string :=
  let e := last_segment originalName EmptyString in
  if String.eqb e EmptyString then "mp4"%string else e.

Definition fileExists (u : string) (s : VideoStore) : bool :=
  existsb (String.eqb u) (files s).

Definition removeFile (u : string) (fs : list string) : list string :=
  filter (fun f => negb (String.eqb u f)) fs.

(** [(a, b) => a.stepNumber - b.stepNumber]. *)
Definition byStep (a b : VideoStep) : Z := (stepNumber a - stepNumber b)%Z.

Definition hasStep (n : Z) (v : VideoStep) : bool := (stepNumber v =? n)%Z.

(** [getVideoByStep]. *)
Definition getVideoByStep (n : Z) (s : VideoStore) : option VideoStep :=
  find (hasStep n) (videos s).

(** Outcomes of the awaited calls of one store action. *)
Record IoEnv := mkIo {
  copy_ok : bool;      (* FileSystem.copyAsync *)
  delete_ok : bool;    (* FileSystem.deleteAsync *)
  setItem_ok : bool;   (* AsyncStorage.setItem *)
  getItem_ok : bool;   (* AsyncStorage.getItem *)
  info_ok : bool       (* every getInfoAsync and makeDirectoryAsync *)
}.

Local Open Scope js_scope.

(** [await FileSystem.deleteAsync(uri, { idempotent: true })]. *)
Definition deleteAsync (u : string) (ok : bool) : M VideoStore unit :=
  if ok then modify (fun s => with_files (removeFile u (files s)) s)
  else throw.

(** [await AsyncStorage.setItem(VIDEO_STORAGE_KEY, JSON.stringify(updated))]. *)
Definition setItem (updated : list VideoStep) (ok : bool) : M VideoStore unit :=
  if ok then modify (with_stored (Some updated)) else throw.

(** The tail of [addVideo] and of [removeVideo] from
    [set({ videos: updated })] on.  [updated] was computed from the list
    read by [get()] before the deletion was awaited; when other store
    actions ran during that await, the tail runs in a later state. *)
Definition store_updated (updated : list VideoStep) (io : IoEnv)
  : M VideoStore unit :=
  modify (with_videos updated) ;; setItem updated (setItem_ok io).

(** The new entry [addVideo] builds; [now] is [Date.now()]. *)
Definition newVideoOf (dir : string) (n : Z) (originalName : string) (now : Z)
  : VideoStep :=
  let id := ("step_" ++ show_Z n ++ "_" ++ show_Z now)%string in
  let destUri := (dir ++ id ++ "." ++ extension_of originalName)%string in
  mkVideo id n destUri originalName.

(** The list [addVideo] stores:
    [videos.filter(v => v.stepNumber !== stepNumber).concat(newVideo).sort(...)]. *)
Definition addedTo (videos : list VideoStep) (newVideo : VideoStep)
  : list VideoStep :=
  js_sort byStep
    (filter (fun v => negb (hasStep (stepNumber newVideo) v)) videos
     ++ [newVideo]).

(** [addVideo(stepNumber, sourceUri, originalName)]. *)
Definition addVideo (n : Z) (sourceUri originalName : string) (now : Z)
  (io : IoEnv) : M VideoStore unit :=
  fun s =>
    let newVideo := newVideoOf (VIDEO_DIR s) n originalName now in
    ((if copy_ok io
      then modify (fun s => with_files (uri newVideo :: files s) s)
      else throw) ;;
     (fun s1 =>
        let videos := videos s1 in
        (match find (hasStep n) videos with
         | Some existing => deleteAsync (uri existing) (delete_ok io)
         | None => ret tt
         end ;;
         store_updated (addedTo videos newVideo) io) s1)) s.

(** [removeVideo(stepNumber)]. *)
Definition removeVideo (n : Z) (io : IoEnv) : M VideoStore unit :=
  fun s =>
    let videos := videos s in
    (match find (hasStep n) videos with
     | Some video => deleteAsync (uri video) (delete_ok io)
     | None => ret tt
     end ;;
     store_updated (filter (fun v => negb (hasStep n v)) videos) io) s.

(** [loadVideos]: a throw anywhere in the body ends in
    [set({ isLoading: false })]; the body writes the store once, at its
    end, so it does not matter which of its probes is the one that
    rejects. *)
Definition loadVideos (io : IoEnv) : M VideoStore unit :=
  try_catch
    ((if info_ok io then ret tt else throw) ;;
     (if getItem_ok io then ret tt else throw) ;;
     (fun s =>
        match stored s with
        | Some videos =>
            let validVideos := filter (fun v => fileExists (uri v) s) videos in
            modify (fun s => with_isLoading false (with_videos validVideos s)) s
        | None => modify (with_isLoading false) s
        end))
    (modify (with_isLoading false)).

(** The application is closed and opened again: the store is created
    anew, files and AsyncStorage stay. *)
Definition restart (s : VideoStore) : VideoStore :=
  with_isLoading true (with_videos [] s).

Inductive Reach (dir : string) : VideoStore -> Prop :=
| R_initial : Reach dir (initial dir)
| R_load s io : Reach dir s -> Reach dir (run (loadVideos io) s)
| R_add s n src name now io :
    Reach dir s -> Reach dir (run (addVideo n src name now io) s)
| R_remove s n io :
    Reach dir s -> Reach dir (run (removeVideo n io) s)
| R_add_late s0 s n name now io :
    Reach dir s0 -> Reach dir s ->
    Reach dir
      (run (store_updated
              (addedTo (videos s0) (newVideoOf (VIDEO_DIR s0) n name now)) io)
         s)
| R_remove_late s0 s n io :
    Reach dir s0 -> Reach dir s ->
    Reach dir
      (run (store_updated
              (filter (fun v => negb (hasStep n v)) (videos s0)) io) s)
| R_restart s : Reach dir s -> Reach dir (restart s).

(** At most one entry per step number, in ascending order of step
    number. *)
Definition OnePerStep (l : list VideoStep) : Prop :=
  NoDup (map stepNumber l).

Definition Ascending (l : list VideoStep) : Prop :=
  Sorted Z.le (map stepNumber l).

Definition StoreInv (l : list VideoStep) : Prop :=
  OnePerStep l /\ Ascending l.

(** Whether a run of [addVideo] gets as far as [set({ videos: updated })]:
    the copy resolves, and so does the deletion of the file of an entry
    already there. *)
Definition reaches_set (io : IoEnv) (n : Z) (s : VideoStore) : bool :=
  copy_ok io &&
  match find (hasStep n) (videos s) with
  | Some _ => delete_ok io
  | None => true
  end.

(** Sample run: steps 2 and 1 uploaded, in this order, on a fresh store. *)
Definition all_io : IoEnv := mkIo true true true true true.

Definition two_videos : VideoStore :=
  run (addVideo 1 "file:///picked/a.mov" "a.mov" 1700000000200 all_io)
    (run (addVideo 2 "file:///picked/b.mp4" "b.mp4" 1700000000100 all_io)
       (initial "file:///data/")).

(** The file of every listed video is on the device, and no two listed
    videos share a file. *)
Definition FilesPresent (s : VideoStore) : Prop :=
  (forall v, In v (videos s) -> fileExists (uri v) s = true) /\
  NoDup (map uri (videos s)).

(** Whether a string has a dot in it. *)
Fixpoint has_dot (s : string) : bool :=
  match s with
  | EmptyString => false
  | String c rest => Ascii.eqb c "."%char || has_dot rest
  end.

End Store.

(* ------------------------------------------------------------------ *)
(** ** The step list application of [src/unnamed/part_000]

    The second [App] of the file: the screens [index], [loading] and
    [player] over the video store, and [VideoLayer].  The handlers are
    modelled as they are written and every screen is taken as shown; that
    the screens [index] and [loading] use [TouchableOpacity], which this
    file does not import, is outside the model. *)

Module Steps.

Inductive Screen := index | loading | player.

(** The component's state, the store it reads, and the intervals started
    by [handleStart] that are not cleared yet, each with the counter [p]
    of its closure. *)
Record App := mkApp {
  store : Store.VideoStore;
  currentScreen : Screen;
  progress : nat;
  isReady : bool;
  currentIndex : nat;
  stepCount : nat;
  uploadingStep : option Z;
  intervals : list nat
}.

Definition with_store v s :=
  mkApp v (currentScreen s) (progress s) (isReady s) (currentIndex s)
    (stepCount s) (uploadingStep s) (intervals s).
Definition with_currentScreen v s :=
  mkApp (store s) v (progress s) (isReady s) (currentIndex s)
    (stepCount s) (uploadingStep s) (intervals s).
Definition with_progress v s :=
  mkApp (store s) (currentScreen s) v (isReady s) (currentIndex s)
    (stepCount s) (uploadingStep s) (intervals s).
Definition with_isReady v s :=
  mkApp (store s) (currentScreen s) (progress s) v (currentIndex s)
    (stepCount s) (uploadingStep s) (intervals s).
Definition with_currentIndex v s :=
  mkApp (store s) (currentScreen s) (progress s) (isReady s) v
    (stepCount s) (uploadingStep s) (intervals s).
Definition with_stepCount v s :=
  mkApp (store s) (currentScreen s) (progress s) (isReady s) (currentIndex s)
    v (uploadingStep s) (intervals s).
Definition with_uploadingStep v s :=
  mkApp (store s) (currentScreen s) (progress s) (isReady s) (currentIndex s)
    (stepCount s) v (intervals s).
Definition with_intervals v s :=
  mkApp (store s) (currentScreen s) (progress s) (isReady s) (currentIndex s)
    (stepCount s) (uploadingStep s) v.

(** [const { videos, ... } = useVideoStore()]. *)
Definition videos (s : App) : list Store.VideoStep := Store.videos (store s).

Definition initial (dir : string) : App :=
  mkApp (Store.initial dir) index 0 false 0 3 None [].

Local Open Scope js_scope.

(** A store action awaited by the component. *)
Definition on_store {T} (m : M Store.VideoStore T) : M App T :=
  fun s => let (c, st) := m (store s) in (c, with_store st s).

(** What the user chose in the alert of [handleUpload] and what the picker
    returned: [None] is a canceled picker; the library asset has a [uri]
    and a [fileName] that may be null, the document asset a [uri] and a
    [name]. *)
Inductive Choice :=
| Cancel
| Library (asset : option (string * option string))
| Files (asset : option (string * string)).

(** [fileName || 'video.mp4']. *)
Definition fileName_or_default (fileName : option string) : string :=
  match fileName with
  | Some f => if truthy fileName then f else "video.mp4"%string
  | None => "video.mp4"%string
  end.

(** The body both [onPress] handlers share once a file is picked. *)
Definition upload (stepNumber : Z) (uri name : string) (now : Z)
  (io : Store.IoEnv) : M App unit :=
  modify (with_uploadingStep (Some stepNumber)) ;;
  on_store (Store.addVideo stepNumber uri name now io) ;;
  modify (with_uploadingStep None).

(** [handleUpload(stepNumber)] with the button of the alert that is
    pressed. *)
Definition handleUpload (stepNumber : Z) (choice : Choice) (now : Z)
  (io : Store.IoEnv) : M App unit :=
  match choice with
  | Library (Some (uri, fileName)) =>
      upload stepNumber uri (fileName_or_default fileName) now io
  | Files (Some (uri, name)) => upload stepNumber uri name now io
  | _ => ret tt
  end.

(** [handleStart]: the new interval starts with [p = 0]. *)
Definition handleStart (s : App) : App :=
  if List.length (videos s) =? 0 then s
  else with_intervals (intervals s ++ [0]) (with_currentScreen loading s).

Fixpoint remove_nth {T : Type} (k : nat) (l : list T) : list T :=
  match k, l with
  | _, [] => []
  | 0, _ :: rest => rest
  | S j, x :: rest => x :: remove_nth j rest
  end.

(** One firing of the [k]-th interval not yet cleared (nothing fires when
    there is none). *)
Definition tick (k : nat) (s : App) : App :=
  match nth_error (intervals s) k with
  | None => s
  | Some p0 =>
      let p := p0 + 2 in
      let s1 := with_progress p s in
      if 100 <=? p
      then with_isReady true (with_intervals (remove_nth k (intervals s)) s1)
      else with_intervals (update_nth k p (intervals s)) s1
  end.

(** The START button of the loading screen, rendered when [isReady]. *)
Definition pressStart (s : App) : App := with_currentScreen player s.

(** [handleTap]. *)
Definition handleTap (s : App) : App :=
  if currentIndex s + 1 <? List.length (videos s)
  then with_currentIndex (currentIndex s + 1) s
  else with_progress 0
         (with_isReady false
            (with_currentIndex 0 (with_currentScreen index s))).

(** [setStepCount(s => s + 1)]. *)
Definition addStep (s : App) : App := with_stepCount (stepCount s + 1) s.

(** The props of one [VideoLayer] of the player screen. *)
Record Layer := mkLayer {
  key : string;
  uri : string;
  isActive : bool;
  zIndex : Z
}.

Fixpoint layers_from (i : nat) (total : nat) (current : nat)
  (vs : list Store.VideoStep) : list Layer :=
  match vs with
  | [] => []
  | v :: rest =>
      mkLayer (Store.id v) (Store.uri v) (i =? current)
        (Z.of_nat total - Z.of_nat i)
      :: layers_from (S i) total current rest
  end.

(** [videos.map((v, i) => <VideoLayer ... />)]. *)
Definition layers (s : App) : list Layer :=
  layers_from 0 (List.length (videos s)) (currentIndex s) (videos s).

Inductive LayerCall := playAsync | stopAsync.

(** The effect of [VideoLayer]: it runs when the layer is mounted and
    after a render that changed [isActive]. *)
Definition layer_effect (isActive : bool) : LayerCall :=
  if isActive then playAsync else stopAsync.

(** The calls made, in layer order, after the player screen is rendered
    again over the same layers. *)
Fixpoint rerender_calls (i : nat) (before after : list Layer)
  : list (nat * LayerCall) :=
  match before, after with
  | b :: bs, a :: rest =>
      (if Bool.eqb (isActive b) (isActive a) then []
       else [(i, layer_effect (isActive a))])
      ++ rerender_calls (S i) bs rest
  | _, _ => []
  end.

(** The call a re-render from position [c] to position [c'] makes on
    layer [j], if any. *)
Definition changed (c c' j : nat) : list (nat * LayerCall) :=
  if Bool.eqb (j =? c) (j =? c') then []
  else [(j, layer_effect (j =? c'))].

(** What the user and the timers can bring about.  The store and
    [uploadingStep] change through uploads and removals whose awaited
    calls complete at any time, on any screen; the buttons are those of
    the screen that is shown. *)
Inductive Reach (dir : string) : App -> Prop :=
| R_initial : Reach dir (initial dir)
| R_store s st u :
    Reach dir s -> Reach dir (with_uploadingStep u (with_store st s))
| R_addStep s :
    Reach dir s -> currentScreen s = index -> Reach dir (addStep s)
| R_start s :
    Reach dir s -> currentScreen s = index ->
    (0 <? List.length (videos s)) = true ->
    Reach dir (handleStart s)
| R_tick s k : Reach dir s -> Reach dir (tick k s)
| R_pressStart s :
    Reach dir s -> currentScreen s = loading -> isReady s = true ->
    Reach dir (pressStart s)
| R_tap s :
    Reach dir s -> currentScreen s = player -> Reach dir (handleTap s).

(** What holds of the loading state on each screen. *)
Definition LoadingInv (s : App) : Prop :=
  match currentScreen s with
  | index =>
      progress s = 0 /\ isReady s = false /\ currentIndex s = 0 /\
      intervals s = []
  | loading =>
      currentIndex s = 0 /\
      ((isReady s = false /\ intervals s = [progress s] /\
        progress s < 100 /\ Nat.even (progress s) = true) \/
       (isReady s = true /\ intervals s = [] /\ progress s = 100))
  | player => isReady s = true /\ progress s = 100 /\ intervals s = []
  end.

(** A store with the given list of videos, for examples. *)
Definition showing (vs : list Store.VideoStep) (s : App) : App :=
  with_store (Store.with_videos vs (store s)) s.

Definition three_clips : list Store.VideoStep :=
  [Store.mkVideo "step_1_10" 1 "file:///data/videos/step_1_10.mp4" "a.mp4";
   Store.mkVideo "step_2_20" 2 "file:///data/videos/step_2_20.mp4" "b.mp4";
   Store.mkVideo "step_3_30" 3 "file:///data/videos/step_3_30.mp4" "c.mp4"].

End Steps.

(* ------------------------------------------------------------------ *)
(** ** Facts about the engine *)

Module EngineFacts.

Import Engine.

Ltac engine_unfold :=
  unfold run, handleGlobalTap, startExperience, await_loadAsync,
    await_playAsync, await_unloadAsync, loadAsync_detached,
    setTimeout_release, log, alert, try_catch_finally, modify, bind, throw,
    ret, with_current, current in *.

Ltac case_step :=
  match goal with
  | |- context [nth_error ?l ?i] => destruct (nth_error l i) eqn:?
  end.

Lemma skipn_prefix (l evs : list Event) :
  skipn (List.length l) (l ++ evs) = evs.
Proof.
  rewrite skipn_app, skipn_all, Nat.sub_diag. reflexivity.
Qed.

Lemma emitted_app (s s' : App) (evs : list Event) :
  trace s' = trace s ++ evs -> emitted s s' = evs.
Proof.
  intros H. unfold emitted. rewrite H. apply skipn_prefix.
Qed.

Lemma emitted_same (s s' : App) :
  trace s' = trace s -> emitted s s' = [].
Proof.
  intros H. apply emitted_app. rewrite H, app_nil_r. reflexivity.
Qed.

Lemma preload_in_range (s : App) :
  0 < List.length (steps s) -> nth_error (steps s) (preloadIndex s) <> None.
Proof.
  intros Hlen. apply nth_error_Some. unfold preloadIndex.
  apply Nat.mod_upper_bound. lia.
Qed.

Lemma preloadIndex_plus_two (s : App) :
  preloadIndex s = (currentIndex s + 2) mod List.length (steps s).
Proof.
  unfold preloadIndex, nextIndex.
  rewrite Nat.Div0.add_mod_idemp_l. f_equal. lia.
Qed.

(** *** What the surface calls leave alone *)

Lemma keeps_bind {T U V : Type} (f : App -> V) (m : M App T)
  (k : T -> M App U) :
  keeps f m -> (forall x, keeps f (k x)) -> keeps f (bind m k).
Proof.
  intros Hm Hk s. unfold bind. specialize (Hm s).
  destruct (m s) as [[x|] s1]; cbn in *; [|exact Hm].
  rewrite Hk. exact Hm.
Qed.

Ltac keeps_prim :=
  let s := fresh "s" in
  intros s; destruct s;
  unfold await_loadAsync, await_playAsync, await_unloadAsync,
    loadAsync_detached, setTimeout_release, log, alert, modify, bind, throw,
    ret, with_current, current; cbn;
  repeat match goal with
         | |- context [match ?x with _ => _ end] => destruct x; cbn
         end;
  reflexivity.

Lemma tap_unlocked (env : TapEnv) (s : App) :
  isTransitioning s = false ->
  handleGlobalTap env s =
    bind (modify (with_isTransitioning true)) (fun _ =>
    bind (swap_body env (activePlayer s) (preloadIndex s)) (fun _ =>
    bind (modify (with_currentIndex (nextIndex s))) (fun _ =>
    setTimeout_release))) s.
Proof.
  intros L. unfold handleGlobalTap, swap_body, preloadIndex, nextIndex.
  rewrite L. destruct (activePlayer s); reflexivity.
Qed.

Lemma swap_body_keeps {V : Type} (f : App -> V) (env : TapEnv)
  (act : Player) (preload : nat) :
  (forall p ok, keeps f (await_playAsync p ok)) ->
  (forall p ok, keeps f (await_unloadAsync p ok)) ->
  (forall p i, keeps f (loadAsync_detached p i)) ->
  (forall p, keeps f (modify (with_activePlayer p))) ->
  keeps f (swap_body env act preload).
Proof.
  intros Hp Hu Hl Ha. destruct act; cbn;
    repeat (apply keeps_bind; [|intros ?]); auto.
Qed.

Lemma swap_body_keeps_steps env act preload :
  keeps steps (swap_body env act preload).
Proof. apply swap_body_keeps; intros; keeps_prim. Qed.

Lemma swap_body_keeps_setupMode env act preload :
  keeps setupMode (swap_body env act preload).
Proof. apply swap_body_keeps; intros; keeps_prim. Qed.

Lemma swap_body_keeps_alerts env act preload :
  keeps alerts (swap_body env act preload).
Proof. apply swap_body_keeps; intros; keeps_prim. Qed.

Lemma swap_body_keeps_lock env act preload :
  keeps isTransitioning (swap_body env act preload).
Proof. apply swap_body_keeps; intros; keeps_prim. Qed.

Lemma swap_body_keeps_timers env act preload :
  keeps timers (swap_body env act preload).
Proof. apply swap_body_keeps; intros; keeps_prim. Qed.

Lemma swap_body_keeps_currentIndex env act preload :
  keeps currentIndex (swap_body env act preload).
Proof. apply swap_body_keeps; intros; keeps_prim. Qed.

(** A field that neither the lock, nor [setCurrentIndex], nor the timer
    touch is kept by the whole tap when the swap keeps it. *)
Lemma tap_keeps {V : Type} (f : App -> V) (env : TapEnv) :
  (forall act preload, keeps f (swap_body env act preload)) ->
  (forall b, keeps f (modify (with_isTransitioning b))) ->
  (forall i, keeps f (modify (with_currentIndex i))) ->
  keeps f setTimeout_release ->
  keeps f (handleGlobalTap env).
Proof.
  intros Hb Hl Hc Ht s.
  destruct (isTransitioning s) eqn:L.
  - unfold handleGlobalTap. rewrite L. reflexivity.
  - rewrite (tap_unlocked env s L).
    revert s L.
    assert (K : forall s0, keeps f
      (bind (modify (with_isTransitioning true)) (fun _ =>
       bind (swap_body env (activePlayer s0) (preloadIndex s0)) (fun _ =>
       bind (modify (with_currentIndex (nextIndex s0))) (fun _ =>
       setTimeout_release))))).
    { intros s0. repeat (apply keeps_bind; [|intros ?]); auto. }
    intros s _. apply K.
Qed.

(** A tap on a locked engine returns at once. *)
Lemma tap_locked (env : TapEnv) (s : App) :
  isTransitioning s = true -> handleGlobalTap env s = (Normal tt, s).
Proof.
  intros H. unfold handleGlobalTap. rewrite H. reflexivity.
Qed.

(** Whatever a tap does, it leaves the lock set: it is taken before the
    first await and released by the timer only. *)
Lemma tap_leaves_locked (env : TapEnv) (s : App) :
  isTransitioning (run (handleGlobalTap env) s) = true.
Proof.
  destruct (isTransitioning s) eqn:L.
  - unfold run. rewrite tap_locked by assumption. exact L.
  - unfold run. rewrite (tap_unlocked env s L).
    unfold bind at 1. cbn [modify].
    assert (K : keeps isTransitioning
      (bind (swap_body env (activePlayer s) (preloadIndex s)) (fun _ =>
       bind (modify (with_currentIndex (nextIndex s))) (fun _ =>
       setTimeout_release)))).
    { repeat (apply keeps_bind; [|intros ?]);
        [apply swap_body_keeps_lock|keeps_prim|keeps_prim]. }
    rewrite K. destruct s; reflexivity.
Qed.

(** The complete effect of a tap whose awaited calls resolve. *)
Lemma tap_resolved (s : App) (a b : Slot) :
  isTransitioning s = false ->
  current (activePlayer s) s = Some a ->
  current (standbyPlayer s) s = Some b ->
  0 < List.length (steps s) ->
  let s' := run (handleGlobalTap all_ok) s in
  fst (handleGlobalTap all_ok s) = Normal tt /\
  steps s' = steps s /\
  setupMode s' = setupMode s /\
  currentIndex s' = nextIndex s /\
  activePlayer s' = standbyPlayer s /\
  isTransitioning s' = true /\
  timers s' = S (timers s) /\
  current (standbyPlayer s) s' = Some (played b) /\
  current (activePlayer s) s' = Some (Loading (preloadIndex s)) /\
  alerts s' = alerts s /\
  trace s' = trace s ++
    [Call (CPlay (standbyPlayer s)); Done (CPlay (standbyPlayer s));
     Call (CUnload (activePlayer s)); Done (CUnload (activePlayer s));
     Call (CLoad (activePlayer s) (preloadIndex s)
             (uri_at s (preloadIndex s)) false)].
Proof.
  intros L Ha Hb Hlen.
  pose proof (preload_in_range s Hlen) as Hn.
  unfold uri_at, standbyPlayer, preloadIndex, nextIndex in *.
  destruct s as [dir st sm il ci ap it tm pa pb tr al]; cbn in L; subst it.
  engine_unfold.
  destruct ap; cbn in Ha, Hb, Hn, Hlen |- *; subst pa pb; cbn;
    case_step; try congruence; cbn;
    rewrite <- !app_assoc; cbn; repeat split; reflexivity.
Qed.

Lemma tap_trace (env : TapEnv) (s : App) (a b : Slot) :
  isTransitioning s = false ->
  current (activePlayer s) s = Some a ->
  current (standbyPlayer s) s = Some b ->
  trace (run (handleGlobalTap env) s) = trace s ++ tap_events env s.
Proof.
  intros L Ha Hb.
  unfold tap_events, standbyPlayer, preloadIndex, nextIndex in *.
  destruct s as [dir st sm il ci ap it tm pa pb tr al]; cbn in L; subst it.
  engine_unfold.
  destruct env as [[|] [|]], ap; cbn in Ha, Hb |- *; subst pa pb; cbn;
    try case_step; cbn; rewrite <- ?app_assoc; reflexivity.
Qed.

(** A tap raises no alert. *)
Lemma tap_alerts (env : TapEnv) (s : App) :
  alerts (run (handleGlobalTap env) s) = alerts s.
Proof.
  apply (tap_keeps alerts env); intros;
    [apply swap_body_keeps_alerts|keeps_prim|keeps_prim|keeps_prim].
Qed.

(** A tap whose [playAsync] rejects changes nothing but the lock and the
    history. *)
Lemma tap_play_rejected (env : TapEnv) (s : App) (b : Slot) :
  isTransitioning s = false ->
  current (standbyPlayer s) s = Some b ->
  play_ok env = false ->
  handleGlobalTap env s =
    (Thrown,
     with_trace
       (trace s ++ [Call (CPlay (standbyPlayer s));
                    Failed (CPlay (standbyPlayer s))])
       (with_isTransitioning true s)).
Proof.
  intros L Hb Hp. unfold standbyPlayer in *.
  destruct s as [dir st sm il ci ap it tm pa pb tr al]; cbn in L; subst it.
  destruct env as [p u]; cbn in Hp; subst p.
  engine_unfold.
  destruct ap; cbn in Hb |- *; subst; cbn; rewrite <- app_assoc;
    reflexivity.
Qed.

(** *** The transition lock *)

(** C2.  A tap made while [isTransitioning] is set is a no-op: the handler
    returns normally with the very state it was given, so no surface call
    is issued and neither [currentIndex] nor [activePlayer] changes.  Since
    every tap leaves the lock set, a second tap that arrives before the
    settle timer fires is such a no-op; after a first tap whose calls
    resolve, the two taps together have made one swap (one play, one
    unload, one load) and moved [currentIndex] by one step. *)
Theorem C2_locked_tap_is_noop (env env' : TapEnv) (s : App) (a b : Slot) :
  (isTransitioning s = true -> handleGlobalTap env s = (Normal tt, s)) /\
  handleGlobalTap env' (run (handleGlobalTap env) s) =
    (Normal tt, run (handleGlobalTap env) s) /\
  (isTransitioning s = false ->
   current (activePlayer s) s = Some a ->
   current (standbyPlayer s) s = Some b ->
   0 < List.length (steps s) ->
   let s2 := run (handleGlobalTap env') (run (handleGlobalTap all_ok) s) in
   currentIndex s2 = (currentIndex s + 1) mod List.length (steps s) /\
   activePlayer s2 = standbyPlayer s /\
   filter is_play_call (emitted s s2) = [Call (CPlay (standbyPlayer s))] /\
   emitted s s2 =
     [Call (CPlay (standbyPlayer s)); Done (CPlay (standbyPlayer s));
      Call (CUnload (activePlayer s)); Done (CUnload (activePlayer s));
      Call (CLoad (activePlayer s) (preloadIndex s)
              (uri_at s (preloadIndex s)) false)]).
Proof.
  split; [apply tap_locked|]. split.
  - apply tap_locked, tap_leaves_locked.
  - intros L Ha Hb Hlen s2.
    assert (E : s2 = run (handleGlobalTap all_ok) s).
    { unfold s2, run at 1.
      rewrite tap_locked by apply tap_leaves_locked. reflexivity. }
    destruct (tap_resolved s a b L Ha Hb Hlen)
      as (_ & _ & _ & Hci & Hap & _ & _ & _ & _ & _ & Htr).
    rewrite E. rewrite Hci, Hap, (emitted_app _ _ _ Htr).
    repeat split; reflexivity.
Qed.

Lemma C2_double_tap_example :
  let s := launched "file:///data/" in
  let s1 := run (handleGlobalTap all_ok) s in
  let s2 := run (handleGlobalTap all_ok) s1 in
  isTransitioning s1 = true /\ s2 = s1 /\
  currentIndex s = 0 /\ currentIndex s2 = 1 /\
  activePlayer s = A /\ activePlayer s2 = B.
Proof.
  cbv zeta.
  pose proof (C2_locked_tap_is_noop all_ok all_ok
                (launched "file:///data/") Unloaded Unloaded)
    as (_ & H2 & H3).
  specialize (H3 eq_refl eq_refl eq_refl ltac:(cbn; lia)).
  cbv zeta in H3. destruct H3 as (Hci & Hap & _).
  split; [reflexivity|]. split.
  - unfold run at 1. rewrite H2. reflexivity.
  - split; [reflexivity|]. split; [exact Hci|].
    split; [reflexivity|exact Hap].
Defined.

(** A tap that ends in a rejection never reaches [setTimeout]: the lock
    stays set with no timer pending to release it, and [currentIndex] is
    not updated. *)
Lemma tap_rejected_keeps_lock (env : TapEnv) (s : App) :
  isTransitioning s = false ->
  fst (handleGlobalTap env s) = Thrown ->
  let s' := run (handleGlobalTap env) s in
  isTransitioning s' = true /\ timers s' = timers s /\
  currentIndex s' = currentIndex s.
Proof.
  intros L H. cbv zeta. split; [apply tap_leaves_locked|]. revert H.
  unfold run. rewrite (tap_unlocked env s L).
  pose proof (swap_body_keeps_timers env (activePlayer s) (preloadIndex s)
                (with_isTransitioning true s)) as Kt.
  pose proof (swap_body_keeps_currentIndex env (activePlayer s)
                (preloadIndex s) (with_isTransitioning true s)) as Kc.
  unfold bind. cbn [modify].
  destruct (swap_body env (activePlayer s) (preloadIndex s)
              (with_isTransitioning true s)) as [[x|] s2]; cbn in Kt, Kc |- *.
  - discriminate.
  - intros _. split; assumption.
Qed.

Lemma tap_rejected_example :
  let s := primed "file:///data/" in
  let s' := run (handleGlobalTap (mkTapEnv true false)) s in
  isTransitioning s' = true /\ timers s' = 0 /\
  isTransitioning (timeout s') = true.
Proof.
  cbv zeta.
  assert (L : isTransitioning (primed "file:///data/") = false)
    by (vm_compute; reflexivity).
  assert (T : fst (handleGlobalTap (mkTapEnv true false)
                     (primed "file:///data/")) = Thrown)
    by (vm_compute; reflexivity).
  destruct (tap_rejected_keeps_lock (mkTapEnv true false)
              (primed "file:///data/") L T) as (H1 & H2 & _).
  split; [exact H1|]. split; [rewrite H2; vm_compute; reflexivity|].
  vm_compute. reflexivity.
Defined.

(** *** Order of the surface calls inside one tap *)

(** In a history where [x] and [y] stand at the front, whatever starts
    reclaiming [p] further on has both before it. *)
Lemma split_after_two (x y : Event) (l pre post : list Event) (e : Event)
  (p : Player) :
  reclaims p x = false -> reclaims p y = false ->
  x :: y :: l = pre ++ e :: post -> reclaims p e = true ->
  In x pre /\ In y pre.
Proof.
  intros Hx Hy H He.
  destruct pre as [|p1 pre]; cbn in H.
  - injection H as <- _. congruence.
  - injection H as <- H.
    destruct pre as [|p2 pre]; cbn in H.
    + injection H as <- _. congruence.
    + injection H as <- _. cbn. auto.
Qed.

(** C3.  In every tap on an unlocked engine, the first surface call is
    [playAsync] on the standby surface, and any call that starts reclaiming
    the surface that was active (its unload, its reload) comes after that
    play call was issued and after its promise resolved: the old surface is
    never touched before the new one has been told to play.  When the play
    call resolves the reclaim does follow. *)
Theorem C3_play_before_reclaim (env : TapEnv) (s : App) (a b : Slot) :
  isTransitioning s = false ->
  current (activePlayer s) s = Some a ->
  current (standbyPlayer s) s = Some b ->
  let act := activePlayer s in
  let stb := standbyPlayer s in
  let evs := emitted s (run (handleGlobalTap env) s) in
  (exists rest, evs = Call (CPlay stb) :: rest) /\
  (forall pre e post,
     evs = pre ++ e :: post -> reclaims act e = true ->
     In (Call (CPlay stb)) pre /\ In (Done (CPlay stb)) pre) /\
  (play_ok env = true -> In (Call (CUnload act)) evs).
Proof.
  intros L Ha Hb act stb evs.
  assert (E : evs = tap_events env s).
  { apply emitted_app, (tap_trace env s a b); assumption. }
  rewrite E. clear E evs. unfold tap_events. fold act stb.
  assert (Hc : reclaims act (Call (CPlay stb)) = false) by reflexivity.
  assert (Hd : reclaims act (Done (CPlay stb)) = false) by reflexivity.
  destruct (play_ok env), (unload_ok env),
    (nth_error (steps s) (preloadIndex s));
    (split; [eexists; reflexivity|]);
    (split; [|try discriminate; intros _; cbn; auto]);
    intros pre e post H He;
    try (revert H He; apply split_after_two; assumption);
    destruct pre as [|p1 [|p2 [|p3 pre]]]; cbn in H; try discriminate;
    injection H; intros; subst; cbn in He; discriminate.
Qed.

Lemma C3_first_tap_example :
  let s := launched "file:///data/" in
  let evs := emitted s (run (handleGlobalTap all_ok) s) in
  evs = [Call (CPlay B); Done (CPlay B)] ++
        Call (CUnload A) ::
        [Done (CUnload A);
         Call (CLoad A 2 (Some "file:///data/videos/step_2.mp4"%string) false)]
  /\ In (Call (CPlay B)) [Call (CPlay B); Done (CPlay B)]
  /\ In (Done (CPlay B)) [Call (CPlay B); Done (CPlay B)].
Proof.
  cbv zeta. split; [reflexivity|].
  exact (proj1 (proj2
    (C3_play_before_reclaim all_ok (launched "file:///data/")
       Unloaded Unloaded eq_refl eq_refl eq_refl))
    [Call (CPlay B); Done (CPlay B)] (Call (CUnload A))
    [Done (CUnload A);
     Call (CLoad A 2 (Some "file:///data/videos/step_2.mp4"%string) false)]
    eq_refl eq_refl).
Defined.

(** *** Reclaiming the surface that was active *)

(** C7 as stated fails on the code: the claim has the surface that was
    active commanded [stop()] before its unload; the first tap after the
    launch issues no [stopAsync] on it. *)
Lemma C7_no_stop_before_unload :
  let s := launched "file:///data/" in
  let evs := emitted s (run (handleGlobalTap all_ok) s) in
  activePlayer s = A /\
  In (Call (CUnload A)) evs /\
  ~ In (Call (CStop A)) evs.
Proof.
  cbv zeta. split; [reflexivity|]. split.
  - vm_compute. tauto.
  - vm_compute. intros H.
    repeat (destruct H as [H|H]; [discriminate H|]). exact H.
Qed.

(** C7, amended.  A tap never issues [stopAsync].  On the surface that was
    active it issues [unloadAsync], awaits it, and only then issues
    [loadAsync] (with [shouldPlay] false) for the step at
    [(currentIndex + 2) mod length]: every load call of a tap has the
    resolution of that unload before it.  When the awaited calls resolve,
    the tap issues exactly play, unload, load in this order. *)
Theorem C7_unload_then_load (env : TapEnv) (s : App) (a b : Slot) :
  isTransitioning s = false ->
  current (activePlayer s) s = Some a ->
  current (standbyPlayer s) s = Some b ->
  let act := activePlayer s in
  let stb := standbyPlayer s in
  let target := (currentIndex s + 2) mod List.length (steps s) in
  let evs := emitted s (run (handleGlobalTap env) s) in
  filter is_stop_call evs = [] /\
  (forall pre c post,
     evs = pre ++ Call c :: post ->
     match c with
     | CLoad p i src shouldPlay =>
         p = act /\ i = target /\ src = uri_at s target /\
         shouldPlay = false /\
         In (Call (CUnload act)) pre /\ In (Done (CUnload act)) pre
     | _ => True
     end) /\
  (play_ok env = true -> unload_ok env = true ->
   0 < List.length (steps s) ->
   evs = [Call (CPlay stb); Done (CPlay stb);
          Call (CUnload act); Done (CUnload act);
          Call (CLoad act target (uri_at s target) false)]).
Proof.
  intros L Ha Hb act stb target evs.
  assert (E : evs = tap_events env s).
  { apply emitted_app, (tap_trace env s a b); assumption. }
  assert (T : preloadIndex s = target) by apply preloadIndex_plus_two.
  rewrite E. clear E evs. unfold tap_events, uri_at. fold act stb.
  rewrite T.
  pose proof (preload_in_range s) as R. rewrite T in R.
  destruct (play_ok env), (unload_ok env),
    (nth_error (steps s) target) as [st|];
    (split; [reflexivity|]);
    (split;
      [|try discriminate; intros _ _ Hlen;
        try reflexivity; exfalso; apply (R Hlen); reflexivity]);
    intros pre c post H;
    destruct pre as [|p1 [|p2 [|p3 [|p4 [|p5 [|p6 pre]]]]]];
    cbn in H; try discriminate;
    injection H; intros; subst; cbn; auto 10.
Qed.

Lemma C7_first_tap_example :
  let s := launched "file:///data/" in
  emitted s (run (handleGlobalTap all_ok) s) =
    [Call (CPlay B); Done (CPlay B); Call (CUnload A); Done (CUnload A);
     Call (CLoad A 2 (Some "file:///data/videos/step_2.mp4"%string) false)].
Proof.
  cbv zeta.
  exact (proj2 (proj2
    (C7_unload_then_load all_ok (launched "file:///data/")
       Unloaded Unloaded eq_refl eq_refl eq_refl))
    eq_refl eq_refl (Nat.lt_0_succ 4)).
Defined.

(** *** A standby surface that is not ready *)

(** C4 as stated fails on the code: right after the launch the standby
    surface is not ready; a tap whose play call rejects makes that one call
    and nothing else, and raises no alert, where the claim has an error
    signalled and the play call made a second time. *)
Lemma C4_no_check_no_retry :
  let s := launched "file:///data/" in
  let s' := run (handleGlobalTap (mkTapEnv false true)) s in
  option_map is_ready (current (standbyPlayer s) s) = Some false /\
  emitted s s' = [Call (CPlay B); Failed (CPlay B)] /\
  ~ (alerts s' <> alerts s \/
     2 <= List.length (filter is_play_call (emitted s s'))).
Proof.
  cbv zeta. split; [reflexivity|]. split; [reflexivity|].
  vm_compute. intros [H|H].
  - apply H. reflexivity.
  - lia.
Qed.

(** C4, amended.  A tap does not look at the state of the standby surface:
    whatever that state is, its first call is [playAsync] on the standby
    surface, that call is made exactly once, and no alert is raised.  When
    the play call rejects, nothing else is called, and [currentIndex],
    [activePlayer], both surfaces and the screen are as they were. *)
Theorem C4_play_issued_once_unchecked (env : TapEnv) (s : App) (a b : Slot) :
  isTransitioning s = false ->
  current (activePlayer s) s = Some a ->
  current (standbyPlayer s) s = Some b ->
  let stb := standbyPlayer s in
  let s' := run (handleGlobalTap env) s in
  let evs := emitted s s' in
  (exists rest, evs = Call (CPlay stb) :: rest) /\
  filter is_play_call evs = [Call (CPlay stb)] /\
  alerts s' = alerts s /\
  (play_ok env = false ->
   evs = [Call (CPlay stb); Failed (CPlay stb)] /\
   currentIndex s' = currentIndex s /\
   activePlayer s' = activePlayer s /\
   playerA s' = playerA s /\
   playerB s' = playerB s /\
   setupMode s' = setupMode s).
Proof.
  intros L Ha Hb stb s' evs.
  assert (E : evs = tap_events env s).
  { apply emitted_app, (tap_trace env s a b); assumption. }
  split; [|split; [|split; [apply tap_alerts|]]].
  - rewrite E. unfold tap_events. fold stb.
    destruct (play_ok env), (unload_ok env),
      (nth_error (steps s) (preloadIndex s)); eexists; reflexivity.
  - rewrite E. unfold tap_events. fold stb.
    destruct (play_ok env), (unload_ok env),
      (nth_error (steps s) (preloadIndex s)); reflexivity.
  - intros P. split.
    + rewrite E. unfold tap_events. rewrite P. reflexivity.
    + unfold s', run.
      rewrite (tap_play_rejected env s b L Hb P). cbn.
      repeat split; reflexivity.
Qed.

Lemma C4_rejected_play_example :
  let s := launched "file:///data/" in
  let s' := run (handleGlobalTap (mkTapEnv false true)) s in
  filter is_play_call (emitted s s') = [Call (CPlay B)] /\
  alerts s' = [] /\ currentIndex s' = 0 /\ activePlayer s' = A.
Proof.
  cbv zeta.
  pose proof (C4_play_issued_once_unchecked (mkTapEnv false true)
                (launched "file:///data/") Unloaded Unloaded
                eq_refl eq_refl eq_refl) as (_ & H1 & H2 & H3).
  destruct (H3 eq_refl) as (_ & Hci & Hap & _).
  split; [exact H1|]. split; [exact H2|]. split; [exact Hci|exact Hap].
Defined.

(** *** startExperience *)

Lemma incomplete_found (s : App) :
  (exists st, In st (steps s) /\ truthy (uri st) = false) ->
  existsb (fun st => negb (truthy (uri st))) (steps s) = true.
Proof.
  intros (st & Hin & Hu). apply existsb_exists.
  exists st. split; [exact Hin|]. rewrite Hu. reflexivity.
Qed.

(** C5.  When some step has no uri (null, or an empty string),
    [startExperience] raises the Steps Incomplete alert and returns: apart
    from that alert the state is the one it was given, so no load call is
    issued, no surface changes, and the application stays on the setup
    screen. *)
Theorem C5_incomplete_sequence_rejected (env : StartEnv) (s : App) :
  (exists st, In st (steps s) /\ truthy (uri st) = false) ->
  let s' := run (startExperience env) s in
  startExperience env s =
    (Normal tt, with_alerts (alerts s ++ [StepsIncomplete]) s) /\
  alerts s' = alerts s ++ [StepsIncomplete] /\
  emitted s s' = [] /\
  playerA s' = playerA s /\ playerB s' = playerB s /\
  setupMode s' = setupMode s /\ isLoading s' = isLoading s.
Proof.
  intros H s'.
  assert (E : startExperience env s =
              (Normal tt, with_alerts (alerts s ++ [StepsIncomplete]) s)).
  { unfold startExperience. rewrite (incomplete_found s H). reflexivity. }
  split; [exact E|].
  unfold s', run. rewrite E. cbn.
  repeat split; try reflexivity.
  apply emitted_same. reflexivity.
Qed.

Lemma C5_scenario_B_example :
  let s := four_steps_one_missing in
  let s' := run (startExperience (mkStartEnv true true)) s in
  nth_error (map uri (steps s)) 2 = Some None /\
  alerts s' = [StepsIncomplete] /\ trace s' = [] /\
  playerA s' = Some Unloaded /\ playerB s' = Some Unloaded /\
  setupMode s' = true.
Proof.
  cbv zeta.
  assert (H : exists st, In st (steps four_steps_one_missing) /\
                         truthy (uri st) = false).
  { exists (mkStep 2 None). split; [cbn; tauto|reflexivity]. }
  destruct (C5_incomplete_sequence_rejected (mkStartEnv true true)
              four_steps_one_missing H) as (E & _).
  unfold run. rewrite E. cbn. repeat split; reflexivity.
Defined.

(** *** Round trips *)

(** One advance that is allowed to finish, when its calls resolve. *)
Lemma advance_resolved (s : App) (a b : Slot) :
  isTransitioning s = false ->
  current (activePlayer s) s = Some a ->
  current (standbyPlayer s) s = Some b ->
  0 < List.length (steps s) ->
  let s' := advance all_ok s in
  steps s' = steps s /\
  currentIndex s' = nextIndex s /\
  activePlayer s' = standbyPlayer s /\
  isTransitioning s' = false /\
  current (activePlayer s') s' = Some (played b) /\
  current (standbyPlayer s') s' = Some (Loading (preloadIndex s)).
Proof.
  intros L Ha Hb Hlen. cbv zeta.
  destruct (tap_resolved s a b L Ha Hb Hlen)
    as (_ & Hst & _ & Hci & Hap & _ & Htm & Hsb & Hac & _).
  unfold advance, timeout. rewrite Htm.
  remember (run (handleGlobalTap all_ok) s) as t eqn:Et.
  unfold standbyPlayer in *.
  destruct t as [dir st sm il ci ap it tm pa pb tr al]; cbn in *.
  subst. destruct (activePlayer s); cbn in *;
    repeat split; assumption || reflexivity.
Qed.

Lemma flips_succ (k : nat) (p : Player) : flips (S k) p = flips k (other p).
Proof.
  unfold flips. rewrite Nat.even_succ, <- Nat.negb_even.
  destruct (Nat.even k), p; reflexivity.
Qed.

(** [k] advances in a row. *)
Lemma advances_resolved (k : nat) :
  forall (s : App) (a b : Slot),
    isTransitioning s = false ->
    current (activePlayer s) s = Some a ->
    current (standbyPlayer s) s = Some b ->
    0 < List.length (steps s) ->
    let s' := advances k all_ok s in
    steps s' = steps s /\
    currentIndex s' mod List.length (steps s) =
      (currentIndex s + k) mod List.length (steps s) /\
    (0 < k -> currentIndex s' < List.length (steps s)) /\
    activePlayer s' = flips k (activePlayer s).
Proof.
  induction k as [|k IH]; intros s a b L Ha Hb Hlen; cbv zeta.
  - cbn. rewrite Nat.add_0_r. repeat split; try reflexivity. lia.
  - cbn [advances].
    destruct (advance_resolved s a b L Ha Hb Hlen)
      as (Hst & Hci & Hap & Hl & Ha' & Hb').
    assert (Hlen' : 0 < List.length (steps (advance all_ok s)))
      by (rewrite Hst; exact Hlen).
    destruct (IH (advance all_ok s) _ _ Hl Ha' Hb' Hlen')
      as (IHst & IHci & IHlt & IHap).
    rewrite Hst in IHci, IHlt.
    split; [congruence|]. split; [|split].
    + rewrite IHci, Hci. unfold nextIndex.
      rewrite Nat.Div0.add_mod_idemp_l. f_equal. lia.
    + intros _. destruct k as [|k'].
      * cbn. rewrite Hci. unfold nextIndex.
        apply Nat.mod_upper_bound. lia.
      * apply IHlt. lia.
    + rewrite IHap, Hap, flips_succ. reflexivity.
Qed.

(** C8 as stated fails on the code: after the launch and as many advances
    as there are steps (five), [currentIndex] is back at 0 but the roles
    are not the initial ones; B is the active surface. *)
Lemma C8_roles_swapped_after_five :
  let s := launched "file:///data/" in
  let s' := advances (List.length (steps s)) all_ok s in
  List.length (steps s) = 5 /\ currentIndex s' = 0 /\
  activePlayer s = A /\
  ~ (activePlayer s' = activePlayer s).
Proof.
  cbv zeta. split; [reflexivity|]. split; [reflexivity|].
  split; [reflexivity|]. vm_compute. discriminate.
Qed.

(** C8, amended.  From a state as the launch leaves it ([currentIndex] 0,
    lock free, both surfaces attached), as many advances as there are
    steps bring [currentIndex] back to 0.  Each advance exchanges the two
    roles, so the pairing is the initial one exactly when the number of
    steps is even; with the five steps of this application the roles end
    exchanged. *)
Theorem C8_round_trip_index_and_parity (s : App) (a b : Slot) :
  isTransitioning s = false ->
  current (activePlayer s) s = Some a ->
  current (standbyPlayer s) s = Some b ->
  0 < List.length (steps s) ->
  currentIndex s = 0 ->
  let n := List.length (steps s) in
  let s' := advances n all_ok s in
  currentIndex s' = 0 /\
  activePlayer s' = (if Nat.even n then activePlayer s else standbyPlayer s) /\
  standbyPlayer s' = (if Nat.even n then standbyPlayer s else activePlayer s) /\
  (n = STEP_COUNT ->
   activePlayer s' = standbyPlayer s /\ standbyPlayer s' = activePlayer s).
Proof.
  intros L Ha Hb Hlen H0 n s'.
  destruct (advances_resolved n s a b L Ha Hb Hlen)
    as (_ & Hci & Hlt & Hap).
  fold n s' in Hci, Hlt, Hap.
  assert (C0 : currentIndex s' = 0).
  { rewrite H0, Nat.add_0_l, Nat.Div0.mod_same in Hci.
    rewrite Nat.mod_small in Hci by (apply Hlt; exact Hlen). exact Hci. }
  assert (A' : activePlayer s' =
               if Nat.even n then activePlayer s else standbyPlayer s).
  { rewrite Hap. reflexivity. }
  assert (B' : standbyPlayer s' =
               if Nat.even n then standbyPlayer s else activePlayer s).
  { unfold standbyPlayer at 1. rewrite A'. unfold standbyPlayer.
    destruct (Nat.even n), (activePlayer s); reflexivity. }
  split; [exact C0|]. split; [exact A'|]. split; [exact B'|].
  intros E. rewrite A', B', E. split; reflexivity.
Qed.

Lemma C8_five_steps_example :
  let s := launched "file:///data/" in
  let s' := advances 5 all_ok s in
  currentIndex s' = 0 /\ activePlayer s' = B /\ standbyPlayer s' = A.
Proof.
  cbv zeta.
  destruct (C8_round_trip_index_and_parity (launched "file:///data/")
              Unloaded Unloaded eq_refl eq_refl eq_refl
              (Nat.lt_0_succ 4) eq_refl) as (H0 & HA & HB & _).
  split; [exact H0|]. split; [exact HA|exact HB].
Defined.

(** *** The pairing of clips and surfaces *)

Lemma bound_played (sl : Slot) : bound (played sl) = bound sl.
Proof. destruct sl; reflexivity. Qed.

(** A tap whose calls resolve keeps the pairing and exchanges the roles:
    when the active surface holds the clip at [currentIndex] and the other
    one the next clip, then after the tap the surface that was standby is
    the active one and plays that next clip, [currentIndex] has moved to
    it, the surface that was active is loading the clip after it, and the
    pairing holds again. *)
Lemma tap_preserves_EngineInv (s : App) :
  EngineInv s -> isTransitioning s = false -> 0 < List.length (steps s) ->
  let s' := run (handleGlobalTap all_ok) s in
  EngineInv s' /\
  activePlayer s' = standbyPlayer s /\
  standbyPlayer s' = activePlayer s /\
  currentIndex s' = (currentIndex s + 1) mod List.length (steps s) /\
  steps s' = steps s /\
  clip_of (activePlayer s') s' = Some (currentIndex s') /\
  current (standbyPlayer s') s' = Some (Loading (preloadIndex s)).
Proof.
  intros (Hne & Hact & Hstb) L Hlen s'.
  destruct (current (activePlayer s) s) as [a|] eqn:Ha; [|discriminate].
  destruct (current (standbyPlayer s) s) as [b|] eqn:Hb; [|discriminate].
  cbn in Hact, Hstb.
  destruct (tap_resolved s a b L Ha Hb Hlen)
    as (_ & Hst & _ & Hci & Hap & _ & _ & Hsb & Hac & _).
  fold s' in Hst, Hci, Hap, Hsb, Hac.
  assert (Hflip : standbyPlayer s' = activePlayer s).
  { unfold standbyPlayer at 1. rewrite Hap. unfold standbyPlayer.
    destruct (activePlayer s); reflexivity. }
  injection Hstb as Hb'.
  split; [|split; [exact Hap|split; [exact Hflip|split; [exact Hci|
          split; [exact Hst|split]]]]].
  - unfold EngineInv. rewrite Hflip, Hap, Hsb, Hac, Hci, Hst. cbn.
    rewrite bound_played, Hb'. split; [|split; reflexivity].
    unfold standbyPlayer. destruct (activePlayer s); discriminate.
  - unfold clip_of. rewrite Hap, Hsb, Hci. cbn.
    rewrite bound_played, Hb'. reflexivity.
  - rewrite Hflip. exact Hac.
Qed.

Lemma primed_reachable : Reach "file:///data/" (primed "file:///data/").
Proof.
  assert (R0 : Reach "file:///data/" (launched "file:///data/")).
  { unfold launched. apply R_start; try reflexivity.
    unfold uploaded. cbn [seq STEP_COUNT fold_left].
    repeat apply R_upload. apply R_initial. }
  unfold primed, advance.
  apply R_settle, R_timeout, R_tap; [|vm_compute; reflexivity].
  apply R_settle, R_timeout, R_tap; [exact R0|vm_compute; reflexivity].
Qed.

Lemma primed_paired : EngineInv (primed "file:///data/").
Proof.
  split; [vm_compute; discriminate|]. split; vm_compute; reflexivity.
Qed.

Lemma tap_on_primed_example :
  let s := primed "file:///data/" in
  let s' := run (handleGlobalTap all_ok) s in
  Reach "file:///data/" s /\
  activePlayer s = A /\ activePlayer s' = B /\
  currentIndex s = 2 /\ currentIndex s' = 3 /\
  playerB s' = Some (Playing 3) /\ playerA s' = Some (Loading 4) /\
  EngineInv s'.
Proof.
  cbv zeta.
  destruct (tap_preserves_EngineInv (primed "file:///data/") primed_paired
              ltac:(vm_compute; reflexivity)
              ltac:(vm_compute; lia))
    as (I & Hap & _ & Hci & _ & _ & Hsb).
  split; [exact primed_reachable|].
  split; [vm_compute; reflexivity|].
  split; [rewrite Hap; vm_compute; reflexivity|].
  split; [vm_compute; reflexivity|].
  split; [rewrite Hci; vm_compute; reflexivity|].
  split; [vm_compute; reflexivity|].
  split; [vm_compute; reflexivity|exact I].
Defined.

Lemma tap_setupMode (env : TapEnv) (s : App) :
  setupMode (run (handleGlobalTap env) s) = setupMode s.
Proof.
  apply (tap_keeps setupMode env); intros;
    [apply swap_body_keeps_setupMode|keeps_prim|keeps_prim|keeps_prim].
Qed.

Lemma setup_refs_null (dir : string) (s : App) :
  Reach dir s -> setupMode s = true -> OnSetup s.
Proof.
  unfold OnSetup.
  induction 1 as [|s ok files R IH|s i res ok R IH|s env R IH Hs Hl
                 |s env R IH Hs|s R IH|s p ok R IH]; intros S.
  - repeat split; reflexivity.
  - revert S IH. unfold run, loadSavedAssets.
    destruct ok; cbn; auto.
  - revert S IH. unfold run, handleUpload, try_catch, try_catch_finally,
      alert, modify, throw, ret.
    destruct res as [|src]; [auto|].
    destruct ok; [destruct (set_uri i _ (steps s))|]; cbn; auto.
  - destruct (IH Hs) as (HA & HB & H0 & Hap).
    revert S. unfold commit.
    destruct (setupMode (run (startExperience env) s)) eqn:E;
      [|cbn; intros; congruence].
    intros _. cbn. split; [reflexivity|]. split; [reflexivity|].
    clear E. destruct s as [dir' st sm il ci ap it tm pa pb tr al].
    cbn in HA, HB, H0, Hap. subst pa pb ci ap.
    engine_unfold. cbn.
    destruct (existsb _ st); cbn; split; reflexivity.
  - rewrite tap_setupMode in S. congruence.
  - revert S IH. unfold timeout. destruct (timers s); cbn; auto.
  - revert S IH. unfold settle.
    destruct (current p s) as [[| | |]|] eqn:E; auto.
    destruct p; cbn in E |- *; intros S IH; destruct (IH S) as (HA & HB & _);
      congruence.
Qed.

(** *** Launches from the setup screen *)





(** C1 (finding).  Whenever [startExperience] is run from the setup screen
    and succeeds (the application leaves setup mode), it has issued no
    load: the refs it calls through are null until the playback screen is
    rendered, so both optional calls are skipped.  Playback starts with
    [currentIndex] 0 and [activePlayer] A while both surfaces are
    unloaded, and the pairing [EngineInv] does not hold in that state. *)
Theorem C1_launch_leaves_surfaces_unloaded (dir : string) (s : App)
  (env : StartEnv) :
  Reach dir s -> setupMode s = true -> isLoading s = false ->
  let s' := commit (run (startExperience env) s) in
  setupMode s' = false ->
  Reach dir s' /\
  currentIndex s' = 0 /\ activePlayer s' = A /\
  playerA s' = Some Unloaded /\ playerB s' = Some Unloaded /\
  emitted s s' = [] /\
  ~ EngineInv s'.
Proof.
  intros R S Hl s' S'.
  assert (R' : Reach dir s') by (apply R_start; assumption).
  destruct (setup_refs_null dir s R S) as (HA & HB & H0 & Hap).
  assert (F : currentIndex s' = 0 /\ activePlayer s' = A /\
              playerA s' = Some Unloaded /\ playerB s' = Some Unloaded /\
              trace s' = trace s).
  { revert S'. unfold s'. clear R' s' R.
    destruct s as [dir' st sm il ci ap it tm pa pb tr al].
    cbn in HA, HB, H0, Hap, S, Hl. subst pa pb ci ap sm il.
    engine_unfold. unfold commit. cbn.
    destruct (existsb _ st); cbn; [discriminate|].
    intros _. repeat split; reflexivity. }
  destruct F as (F0 & FA & FpA & FpB & Ftr).
  split; [exact R'|]. split; [exact F0|]. split; [exact FA|].
  split; [exact FpA|]. split; [exact FpB|].
  split; [apply emitted_same; exact Ftr|].
  intros (_ & Hact & _).
  rewrite FA in Hact. cbn in Hact. rewrite FpA in Hact. discriminate.
Qed.

Lemma C1_launch_example :
  let s := uploaded "file:///data/" in
  let s' := launched "file:///data/" in
  complete s = true /\ setupMode s' = false /\
  currentIndex s' = 0 /\ activePlayer s' = A /\
  playerA s' = Some Unloaded /\ playerB s' = Some Unloaded /\
  trace s' = [].
Proof.
  cbv zeta.
  assert (R : Reach "file:///data/" (uploaded "file:///data/")).
  { unfold uploaded. cbn [seq STEP_COUNT fold_left].
    repeat apply R_upload. apply R_initial. }
  destruct (C1_launch_leaves_surfaces_unloaded "file:///data/"
              (uploaded "file:///data/") (mkStartEnv true true)
              R eq_refl eq_refl eq_refl)
    as (_ & H0 & HA & HpA & HpB & _).
  split; [reflexivity|]. split; [reflexivity|].
  split; [exact H0|]. split; [exact HA|].
  split; [exact HpA|]. split; [exact HpB|reflexivity].
Defined.

End EngineFacts.

(* ------------------------------------------------------------------ *)
(** ** Facts about the video store *)

Module StoreFacts.

Import Store.

Lemma js_insert_perm (x : VideoStep) (l : list VideoStep) :
  Permutation (js_insert byStep x l) (x :: l).
Proof.
  induction l as [|y l IH]; cbn.
  - apply Permutation_refl.
  - destruct (byStep x y <=? 0)%Z.
    + apply Permutation_refl.
    + eapply perm_trans; [apply perm_skip, IH|apply perm_swap].
Qed.

Lemma js_sort_perm (l : list VideoStep) :
  Permutation (js_sort byStep l) l.
Proof.
  induction l as [|x l IH]; cbn.
  - apply perm_nil.
  - eapply perm_trans; [apply js_insert_perm|apply perm_skip, IH].
Qed.

Lemma js_insert_sorted (x : VideoStep) (l : list VideoStep) :
  Ascending l -> Ascending (js_insert byStep x l).
Proof.
  unfold Ascending. induction l as [|y l IH]; cbn; intros S.
  - repeat constructor.
  - destruct (Z.leb_spec (byStep x y) 0) as [Hle|Hgt].
    + unfold byStep in Hle. cbn. constructor; [exact S|]. constructor. lia.
    + unfold byStep in Hgt. cbn. inversion S as [|? ? S' Hd]; subst.
      constructor; [apply IH; exact S'|].
      destruct l as [|z l]; cbn.
      * constructor. lia.
      * destruct (byStep x z <=? 0)%Z; cbn; constructor.
        -- lia.
        -- inversion Hd; subst. assumption.
Qed.

Lemma js_sort_sorted (l : list VideoStep) : Ascending (js_sort byStep l).
Proof.
  induction l as [|x l IH]; cbn.
  - constructor.
  - apply js_insert_sorted, IH.
Qed.

Lemma filter_ascending (f : VideoStep -> bool) (l : list VideoStep) :
  Ascending l -> Ascending (filter f l).
Proof.
  unfold Ascending. intros S.
  apply Sorted_StronglySorted in S; [|intros x y z; apply Z.le_trans].
  apply StronglySorted_Sorted.
  induction l as [|x l IH]; cbn in *; [constructor|].
  inversion S as [|? ? S' Hall]; subst.
  destruct (f x); cbn; [|apply IH; exact S'].
  constructor; [apply IH; exact S'|].
  rewrite Forall_forall in *. intros k Hk. apply Hall.
  apply in_map_iff in Hk. destruct Hk as (v & <- & Hv).
  apply filter_In in Hv. apply in_map, Hv.
Qed.

Lemma filter_onePerStep (f : VideoStep -> bool) (l : list VideoStep) :
  OnePerStep l -> OnePerStep (filter f l).
Proof.
  unfold OnePerStep. induction l as [|x l IH]; cbn; intros N.
  - constructor.
  - inversion N as [|? ? Hx N']; subst.
    destruct (f x); cbn; [|apply IH; exact N'].
    constructor; [|apply IH; exact N'].
    intros Hin. apply Hx.
    apply in_map_iff in Hin. destruct Hin as (v & E & Hv).
    apply filter_In in Hv. rewrite <- E. apply in_map, Hv.
Qed.

Lemma filter_inv (f : VideoStep -> bool) (l : list VideoStep) :
  StoreInv l -> StoreInv (filter f l).
Proof.
  intros [N S]. split; [apply filter_onePerStep|apply filter_ascending];
    assumption.
Qed.

(** The list handed to [sort] by [addVideo] has one entry per step. *)
Lemma replaced_onePerStep (l : list VideoStep) (v : VideoStep) :
  OnePerStep l ->
  OnePerStep (filter (fun w => negb (hasStep (stepNumber v) w)) l ++ [v]).
Proof.
  intros N. unfold OnePerStep. rewrite map_app. cbn.
  apply NoDup_app; [apply (filter_onePerStep _ l N)|repeat constructor; auto|].
  intros k Hk [<-|[]].
  apply in_map_iff in Hk. destruct Hk as (w & E & Hw).
  apply filter_In in Hw. destruct Hw as [_ Hw].
  unfold hasStep in Hw. rewrite E, Z.eqb_refl in Hw. discriminate.
Qed.

Lemma addedTo_inv (l : list VideoStep) (v : VideoStep) :
  OnePerStep l -> StoreInv (addedTo l v).
Proof.
  intros N. split; [|apply js_sort_sorted].
  unfold OnePerStep, addedTo.
  eapply Permutation_NoDup;
    [apply Permutation_map, Permutation_sym, js_sort_perm|].
  apply replaced_onePerStep, N.
Qed.

Lemma filter_perm (f : VideoStep -> bool) (l l' : list VideoStep) :
  Permutation l l' -> Permutation (filter f l) (filter f l').
Proof.
  induction 1 as [|x l l' P IH|x y l|l l' l'' P1 IH1 P2 IH2]; cbn.
  - constructor.
  - destruct (f x); [apply perm_skip|]; exact IH.
  - destruct (f x), (f y); try apply Permutation_refl. apply perm_swap.
  - eapply perm_trans; eassumption.
Qed.

(** After the replacement the step has exactly one entry, the new one. *)
Lemma addedTo_single (l : list VideoStep) (v : VideoStep) :
  filter (hasStep (stepNumber v)) (addedTo l v) = [v].
Proof.
  apply Permutation_length_1_inv, Permutation_sym.
  unfold addedTo.
  eapply perm_trans; [apply filter_perm, js_sort_perm|].
  rewrite filter_app.
  assert (E1 : filter (hasStep (stepNumber v)) [v] = [v]).
  { cbn [filter]. unfold hasStep. rewrite Z.eqb_refl. reflexivity. }
  assert (E2 : filter (hasStep (stepNumber v))
                 (filter (fun w => negb (hasStep (stepNumber v) w)) l) = []).
  { induction l as [|w l IH]; cbn [filter]; [reflexivity|].
    destruct (hasStep (stepNumber v) w) eqn:E; cbn [negb filter];
      [exact IH|].
    rewrite E. exact IH. }
  rewrite E1, E2. apply Permutation_refl.
Qed.

(** The entries of the other steps are kept. *)
Lemma addedTo_others (l : list VideoStep) (v w : VideoStep) :
  stepNumber w <> stepNumber v -> In w (addedTo l v) <-> In w l.
Proof.
  intros Hne. unfold addedTo.
  assert (P := js_sort_perm
    (filter (fun u => negb (hasStep (stepNumber v) u)) l ++ [v])).
  split; intros H.
  - apply (Permutation_in _ P) in H. apply in_app_or in H.
    destruct H as [H|[<-|[]]]; [|congruence].
    apply filter_In in H. apply H.
  - apply (Permutation_in _ (Permutation_sym P)). apply in_or_app. left.
    apply filter_In. split; [exact H|].
    unfold hasStep. destruct (Z.eqb_spec (stepNumber w) (stepNumber v));
      [contradiction|reflexivity].
Qed.

Lemma addVideo_videos (n : Z) (src name : string) (now : Z) (io : IoEnv)
  (s : VideoStore) :
  videos (run (addVideo n src name now io) s) =
    if reaches_set io n s
    then addedTo (videos s) (newVideoOf (VIDEO_DIR s) n name now)
    else videos s.
Proof.
  unfold reaches_set, run, addVideo, store_updated, deleteAsync, setItem,
    bind, modify, throw, ret.
  destruct s as [vs il dir fs st]. destruct io as [c d si gi inf]. cbn.
  destruct c; cbn; [|reflexivity].
  destruct (find (hasStep n) vs); cbn; [destruct d; cbn|];
    try reflexivity; destruct si; reflexivity.
Qed.

Lemma removeVideo_videos (n : Z) (io : IoEnv) (s : VideoStore) :
  videos (run (removeVideo n io) s) =
    if match find (hasStep n) (videos s) with
       | Some _ => delete_ok io
       | None => true
       end
    then filter (fun v => negb (hasStep n v)) (videos s)
    else videos s.
Proof.
  unfold run, removeVideo, store_updated, deleteAsync, setItem, bind, modify,
    throw, ret.
  destruct s as [vs il dir fs st]. destruct io as [c d si gi inf]. cbn.
  destruct (find (hasStep n) vs); cbn; [destruct d; cbn|];
    try reflexivity; destruct si; reflexivity.
Qed.

Lemma newVideoOf_step (dir : string) (n : Z) (name : string) (now : Z) :
  stepNumber (newVideoOf dir n name now) = n.
Proof. reflexivity. Qed.

Lemma addVideo_stored (n : Z) (src name : string) (now : Z) (io : IoEnv)
  (s : VideoStore) :
  stored (run (addVideo n src name now io) s) = stored s \/
  stored (run (addVideo n src name now io) s) =
    Some (addedTo (videos s) (newVideoOf (VIDEO_DIR s) n name now)).
Proof.
  unfold run, addVideo, store_updated, deleteAsync, setItem, bind, modify,
    throw, ret.
  destruct s as [vs il dir fs st]. destruct io as [c d si gi inf]. cbn.
  destruct c; cbn; [|auto].
  destruct (find (hasStep n) vs); cbn; [destruct d; cbn|];
    auto; destruct si; cbn; auto.
Qed.

Lemma removeVideo_stored (n : Z) (io : IoEnv) (s : VideoStore) :
  stored (run (removeVideo n io) s) = stored s \/
  stored (run (removeVideo n io) s) =
    Some (filter (fun v => negb (hasStep n v)) (videos s)).
Proof.
  unfold run, removeVideo, store_updated, deleteAsync, setItem, bind, modify,
    throw, ret.
  destruct s as [vs il dir fs st]. destruct io as [c d si gi inf]. cbn.
  destruct (find (hasStep n) vs); cbn; [destruct d; cbn|];
    auto; destruct si; cbn; auto.
Qed.

Lemma loadVideos_effect (io : IoEnv) (s : VideoStore) :
  stored (run (loadVideos io) s) = stored s /\
  (videos (run (loadVideos io) s) = videos s \/
   exists l, stored s = Some l /\
     videos (run (loadVideos io) s) =
       filter (fun v => fileExists (uri v) s) l).
Proof.
  unfold run, loadVideos, try_catch, try_catch_finally, bind, modify, throw,
    ret.
  destruct s as [vs il dir fs st]. destruct io as [c d si gi inf]. cbn.
  destruct inf; cbn; [|auto].
  destruct gi; cbn; [|auto].
  destruct st as [l|]; cbn; [|auto].
  split; [reflexivity|]. right. exists l. split; reflexivity.
Qed.

Lemma addVideo_preserves (n : Z) (src name : string) (now : Z) (io : IoEnv)
  (s : VideoStore) :
  StoreInv (videos s) -> StoreInv (videos (run (addVideo n src name now io) s)).
Proof.
  intros I. rewrite addVideo_videos.
  destruct (reaches_set io n s); [|exact I].
  apply addedTo_inv, I.
Qed.

Lemma removeVideo_preserves (n : Z) (io : IoEnv) (s : VideoStore) :
  StoreInv (videos s) -> StoreInv (videos (run (removeVideo n io) s)).
Proof.
  intros I. rewrite removeVideo_videos.
  destruct (match find (hasStep n) (videos s) with
            | Some _ => delete_ok io
            | None => true
            end); [|exact I].
  apply filter_inv, I.
Qed.

Lemma store_updated_inv (updated : list VideoStep) (io : IoEnv)
  (s : VideoStore) :
  StoreInv updated ->
  (forall l, stored s = Some l -> StoreInv l) ->
  StoreInv (videos (run (store_updated updated io) s)) /\
  (forall l, stored (run (store_updated updated io) s) = Some l -> StoreInv l).
Proof.
  intros Iu Is.
  unfold run, store_updated, setItem, bind, modify, throw.
  destruct s as [vs il dir fs st]. cbn in Is |- *.
  destruct (setItem_ok io); cbn; split; try exact Iu; try exact Is.
  intros l [= <-]. exact Iu.
Qed.

(** Every state of the store, and every list it has persisted, has one
    entry per step in ascending order. *)
Lemma reach_inv (dir : string) (s : VideoStore) :
  Reach dir s ->
  StoreInv (videos s) /\ (forall l, stored s = Some l -> StoreInv l).
Proof.
  induction 1 as [|s io R [Iv Is]|s n src name now io R [Iv Is]
                 |s n io R [Iv Is]
                 |s0 s n name now io R0 [Iv0 Is0] R [Iv Is]
                 |s0 s n io R0 [Iv0 Is0] R [Iv Is]
                 |s R [Iv Is]].
  - split; [split; constructor|discriminate].
  - destruct (loadVideos_effect io s) as (Est & [Ev|(l & El & Ev)]).
    + rewrite Ev, Est. auto.
    + rewrite Ev, Est. split; [|exact Is]. apply filter_inv, (Is l El).
  - split; [apply addVideo_preserves, Iv|].
    intros l. destruct (addVideo_stored n src name now io s) as [E|E];
      rewrite E; [apply Is|].
    intros [= <-]. apply addedTo_inv, Iv.
  - split; [apply removeVideo_preserves, Iv|].
    intros l. destruct (removeVideo_stored n io s) as [E|E];
      rewrite E; [apply Is|].
    intros [= <-]. apply filter_inv, Iv.
  - apply store_updated_inv; [apply addedTo_inv, Iv0|exact Is].
  - apply store_updated_inv; [apply filter_inv, Iv0|exact Is].
  - split; [split; constructor|exact Is].
Qed.

(** C10.  The list of the store has at most one entry per step number and
    is in ascending order of step number: in every state the store goes
    through, and after [addVideo] and after [removeVideo] whenever it held
    before, whichever of their awaited calls reject.  When [addVideo]
    gets as far as storing, the step it was called for has exactly one
    entry, the new one (an entry already there has been replaced), and the
    entries of the other steps are the ones that were there. *)
Theorem C10_store_one_entry_per_step_sorted (dir : string) (s : VideoStore)
  (n : Z) (src name : string) (now : Z) (io : IoEnv) :
  (Reach dir s -> StoreInv (videos s)) /\
  (StoreInv (videos s) ->
   StoreInv (videos (run (addVideo n src name now io) s)) /\
   StoreInv (videos (run (removeVideo n io) s))) /\
  (copy_ok io = true -> delete_ok io = true ->
   let v := newVideoOf (VIDEO_DIR s) n name now in
   let s' := run (addVideo n src name now io) s in
   stepNumber v = n /\
   filter (hasStep n) (videos s') = [v] /\
   (forall w, stepNumber w <> n -> In w (videos s') <-> In w (videos s))).
Proof.
  split; [intros R; exact (proj1 (reach_inv dir s R))|]. split.
  - intros I. split;
      [apply addVideo_preserves|apply removeVideo_preserves]; exact I.
  - intros C D v s'. unfold s'. rewrite addVideo_videos.
    assert (E : reaches_set io n s = true).
    { unfold reaches_set. rewrite C, D.
      destruct (find (hasStep n) (videos s)); reflexivity. }
    rewrite E. fold v.
    split; [reflexivity|]. split.
    + apply (addedTo_single (videos s) v).
    + intros w Hw. apply addedTo_others. exact Hw.
Qed.

Lemma C10_replace_example :
  let s := two_videos in
  let s' := run (addVideo 1 "file:///picked/c.mov" "c.mov" 1700000000300
                   all_io) s in
  map stepNumber (videos s) = [1; 2]%Z /\
  map stepNumber (videos s') = [1; 2]%Z /\
  map originalName (videos s') = ["c.mov"; "b.mp4"]%string /\
  StoreInv (videos s').
Proof.
  cbv zeta.
  assert (R : Reach "file:///data/" two_videos).
  { unfold two_videos. repeat apply R_add. apply R_initial. }
  destruct (C10_store_one_entry_per_step_sorted "file:///data/" two_videos
              1 "file:///picked/c.mov" "c.mov" 1700000000300 all_io)
    as (HR & HP & _).
  split; [reflexivity|]. split; [reflexivity|]. split; [reflexivity|].
  exact (proj1 (HP (HR R))).
Defined.

End StoreFacts.

(* ------------------------------------------------------------------ *)
(** ** The divisor of the index computations *)

Module IndexFacts.

Lemma js_mod_pos (a b : nat) : 0 < b -> js_mod a b = Some (a mod b).
Proof.
  intros H. unfold js_mod.
  destruct (Nat.eqb_spec b 0); [lia|reflexivity].
Qed.

Lemma js_assign_length {T : Type} (arr : list (option T)) (i : nat) (v : T) :
  List.length arr <= List.length (js_assign arr i v) /\
  i < List.length (js_assign arr i v).
Proof.
  revert arr. induction i as [|i IH]; intros [|x arr]; cbn.
  - lia.
  - lia.
  - destruct (IH []) as [_ H]. cbn in *. lia.
  - destruct (IH arr). lia.
Qed.

Lemma update_nth_length {T : Type} (i : nat) (v : T) (l : list T) :
  List.length (update_nth i v l) = List.length l.
Proof.
  revert i. induction l as [|x l IH]; intros [|i]; cbn; auto.
Qed.

(** *** The simple player *)

Lemma simple_playing_uris (dir : string) (s : Simple.App) :
  Simple.Reach dir s ->
  Simple.index s <> None /\
  (Simple.playing s = true -> 0 < List.length (Simple.uris s)).
Proof.
  induction 1 as [|s0 s i res ok1 ok2 R0 _ P0 R [Ii Il]|s R [Ii Il] P Sh
                 |s R [Ii Il] P].
  - split; [discriminate|discriminate].
  - unfold run, Simple.pickVideo, bind, modify, throw.
    destruct res as [|src]; cbn; [auto|].
    destruct ok1; cbn; [|auto].
    destruct ok2; cbn; (split; [exact Ii|intros _]);
      match goal with
      | |- context [js_assign ?a ?j ?v] =>
          destruct (js_assign_length a j v) as [_ Hlen]
      end; lia.
  - cbn. split; [exact Ii|]. intros _.
    apply Nat.leb_le in Sh. lia.
  - cbn. specialize (Il P). split; [|intros _; exact Il].
    destruct (Simple.index s) as [k|]; [|congruence].
    cbn. rewrite js_mod_pos by lia. discriminate.
Qed.

Lemma js_assign_holds_a_value {T : Type} (i : nat) (v : T) :
  forall arr,
    1 <= List.length
           (filter (fun u => match u with Some _ => true | None => false end)
              (js_assign arr i v)).
Proof.
  induction i as [|i IH]; intros [|x arr]; cbn; try lia.
  - apply IH.
  - destruct x; cbn; [lia|apply IH].
Qed.

(** A non-empty [uris] holds at least one uploaded clip. *)
Lemma simple_uris_hold_a_clip (dir : string) (s : Simple.App) :
  Simple.Reach dir s ->
  0 < List.length (Simple.uris s) -> 1 <= Simple.uploadedClips s.
Proof.
  unfold Simple.uploadedClips.
  induction 1 as [|s0 s i res ok1 ok2 R0 _ P0 R IH|s R IH P Sh|s R IH P].
  - cbn. lia.
  - unfold run, Simple.pickVideo, bind, modify, throw.
    destruct res as [|src]; cbn; [exact IH|].
    destruct ok1; cbn; [|exact IH].
    destruct ok2; cbn; intros _; apply js_assign_holds_a_value.
  - exact IH.
  - exact IH.
Qed.

(** *** The engine *)

Lemma set_uri_length (i : nat) (u : string) (l l' : list Engine.VideoStep) :
  Engine.set_uri i u l = Some l' -> List.length l' = List.length l.
Proof.
  unfold Engine.set_uri. destruct (nth_error l i); [|discriminate].
  intros [= <-]. apply update_nth_length.
Qed.

Lemma assign_saved_length (dir : string) (files : list Engine.DirEntry) :
  forall l,
    List.length (snd (Engine.assign_saved dir files l)) = List.length l.
Proof.
  induction files as [|f files IH]; intros l; cbn; [reflexivity|].
  destruct (Engine.parsed f) as [z|]; [|apply IH].
  destruct (z <? 5)%Z; [|apply IH].
  destruct (z <? 0)%Z; [reflexivity|].
  destruct (Engine.set_uri _ _ l) as [l'|] eqn:E; [|reflexivity].
  rewrite IH. apply (set_uri_length _ _ _ _ E).
Qed.

Lemma tap_steps (env : Engine.TapEnv) (s : Engine.App) :
  Engine.steps (run (Engine.handleGlobalTap env) s) = Engine.steps s.
Proof.
  apply (EngineFacts.tap_keeps Engine.steps env); intros;
    [apply EngineFacts.swap_body_keeps_steps|EngineFacts.keeps_prim
    |EngineFacts.keeps_prim|EngineFacts.keeps_prim].
Qed.

Lemma startExperience_steps (env : Engine.StartEnv) (s : Engine.App) :
  Engine.steps (run (Engine.startExperience env) s) = Engine.steps s.
Proof.
  destruct s as [dir st sm il ci ap it tm pa pb tr al].
  EngineFacts.engine_unfold. cbn.
  destruct (existsb _ st); [reflexivity|].
  destruct env as [[|] [|]], pa, pb, st as [|x0 [|x1 rest]]; reflexivity.
Qed.

Lemma engine_steps_length (dir : string) (s : Engine.App) :
  Engine.Reach dir s -> List.length (Engine.steps s) = Engine.STEP_COUNT.
Proof.
  induction 1 as [|s ok files R IH|s i res ok R IH|s env R IH Hs Hl
                 |s env R IH Hs|s R IH|s p ok R IH].
  - reflexivity.
  - unfold run, Engine.loadSavedAssets. destruct ok; cbn; [|exact IH].
    rewrite assign_saved_length. exact IH.
  - unfold run, Engine.handleUpload, try_catch, try_catch_finally,
      Engine.alert, modify, throw, ret.
    destruct res as [|src]; [exact IH|].
    destruct ok; [destruct (Engine.set_uri i _ _) as [l'|] eqn:E|]; cbn;
      try exact IH.
    rewrite (set_uri_length _ _ _ _ E). exact IH.
  - unfold Engine.commit.
    destruct (Engine.setupMode (run (Engine.startExperience env) s));
      cbn [Engine.steps Engine.with_playerA Engine.with_playerB];
      rewrite startExperience_steps; exact IH.
  - rewrite tap_steps. exact IH.
  - unfold Engine.timeout. destruct (Engine.timers s); cbn; exact IH.
  - unfold Engine.settle.
    destruct (Engine.current p s) as [[| | |]|]; try exact IH;
      destruct p; cbn; exact IH.
Qed.

(** Every uri the application writes into a step is a non-empty string. *)
Lemma video_dir_truthy (dir rest : string) :
  truthy (Some ((dir ++ "videos/") ++ rest)%string) = true.
Proof.
  cbn. induction dir as [|c dir IH]; reflexivity.
Qed.

Lemma complete_all_truthy (s : Engine.App) :
  Engine.complete s = Engine.all_truthy (Engine.steps s).
Proof.
  unfold Engine.complete, Engine.all_truthy.
  induction (Engine.steps s) as [|x l IH]; cbn; [reflexivity|].
  rewrite negb_orb, negb_involutive, IH. reflexivity.
Qed.

Lemma update_nth_truthy (i : nat) (v : Engine.VideoStep) :
  forall l,
    truthy (Engine.uri v) = true -> Engine.all_truthy l = true ->
    Engine.all_truthy (update_nth i v l) = true.
Proof.
  unfold Engine.all_truthy.
  induction i as [|i IH]; intros [|x l] Hv Hl; cbn in *; try reflexivity;
    apply andb_true_iff in Hl; destruct Hl as [Hx Hl];
    apply andb_true_iff; split; auto.
Qed.

Lemma set_uri_truthy (i : nat) (u : string) (l l' : list Engine.VideoStep) :
  truthy (Some u) = true -> Engine.all_truthy l = true ->
  Engine.set_uri i u l = Some l' -> Engine.all_truthy l' = true.
Proof.
  unfold Engine.set_uri. intros Hu Hl.
  destruct (nth_error l i); [|discriminate].
  intros [= <-]. apply update_nth_truthy; assumption.
Qed.

Lemma assign_saved_truthy (dir : string) (files : list Engine.DirEntry) :
  forall l,
    Engine.all_truthy l = true ->
    Engine.all_truthy (snd (Engine.assign_saved (dir ++ "videos/") files l)) = true.
Proof.
  induction files as [|f files IH]; intros l Hl; cbn; [exact Hl|].
  destruct (Engine.parsed f) as [z|]; [|apply IH, Hl].
  destruct (z <? 5)%Z; [|apply IH, Hl].
  destruct (z <? 0)%Z; [exact Hl|].
  destruct (Engine.set_uri _ _ l) as [l'|] eqn:E; [|exact Hl].
  apply IH. eapply set_uri_truthy; [apply video_dir_truthy|exact Hl|exact E].
Qed.

Lemma startExperience_leaves_setup (env : Engine.StartEnv) (s : Engine.App) :
  Engine.setupMode s = true ->
  Engine.setupMode (run (Engine.startExperience env) s) = false ->
  Engine.complete s = true.
Proof.
  unfold Engine.complete.
  destruct s as [dir st sm il ci ap it tm pa pb tr al]. cbn. intros ->.
  EngineFacts.engine_unfold. cbn.
  destruct (existsb _ st); [discriminate|reflexivity].
Qed.

(** Playback is only entered with every step uploaded. *)
Lemma engine_playback_complete (dir : string) (s : Engine.App) :
  Engine.Reach dir s ->
  Engine.setupMode s = false -> Engine.all_truthy (Engine.steps s) = true.
Proof.
  induction 1 as [|s ok files R IH|s i res ok R IH|s env R IH Hs Hl
                 |s env R IH Hs|s R IH|s p ok R IH].
  - discriminate.
  - unfold run, Engine.loadSavedAssets, Engine.VIDEO_DIR.
    destruct ok; cbn; [|exact IH].
    intros S. apply assign_saved_truthy, IH, S.
  - unfold run, Engine.handleUpload, try_catch, try_catch_finally,
      Engine.alert, modify, throw, ret, Engine.VIDEO_DIR.
    destruct res as [|src]; [exact IH|].
    destruct ok; [destruct (Engine.set_uri i _ _) as [l'|] eqn:E|]; cbn;
      try exact IH.
    intros S. eapply set_uri_truthy; [|apply IH, S|exact E].
    apply video_dir_truthy.
  - unfold Engine.commit.
    destruct (Engine.setupMode (run (Engine.startExperience env) s)) eqn:E;
      cbn [Engine.steps Engine.setupMode Engine.with_playerA
           Engine.with_playerB]; [congruence|].
    intros _. rewrite startExperience_steps, <- complete_all_truthy.
    apply (startExperience_leaves_setup env s Hs E).
  - rewrite tap_steps, EngineFacts.tap_setupMode. exact IH.
  - unfold Engine.timeout. destruct (Engine.timers s); cbn; exact IH.
  - unfold Engine.settle.
    destruct (Engine.current p s) as [[| | |]|]; try exact IH;
      destruct p; cbn; exact IH.
Qed.

(** C9 as stated fails on the code: the start button of the simple player
    does not take two uploaded clips.  After a single upload, to step 3,
    on a fresh application [uris] has length 3 with two holes, the button
    is shown, and playback starts; the divisor is then 3. *)
Lemma C9_one_upload_shows_start :
  let s := run (Simple.pickVideo [] 2 (Simple.Picked "c.mov") true true)
             (Simple.initial "file:///data/") in
  Simple.Reach "file:///data/" s /\
  Simple.uploadedClips s = 1 /\
  Simple.startShown s = true /\
  Simple.playing (Simple.start s) = true /\
  Simple.index (Simple.next (Simple.start s)) = Some 1.
Proof.
  cbv zeta. split; [|repeat split; vm_compute; reflexivity].
  pose proof (Simple.R_initial "file:///data/") as R0.
  exact (Simple.R_pick _ _ _ 2 (Simple.Picked "c.mov") true true
           R0 eq_refl R0).
Qed.

(** C9, amended.  No index computation divides by zero.  In the simple
    player the playing screen is only reached through the start button,
    which is rendered when [uris.length >= 2] (the length of the array,
    holes included: at least one clip has been uploaded then, not
    necessarily two), and an upload that completes leaves an array with at
    least the position it wrote: while playing, [uris] is not empty and
    holds a clip, [index] is a number (never NaN), and both
    [(index + 1) % uris.length] computations (the one of [next] and the one
    of the render) yield a number.  In the engine [steps] always has its
    [STEP_COUNT] = 5 entries and playback is entered only with a uri on
    each of them, so the two modulo computations of [handleGlobalTap] yield
    the numbers the handler goes on with. *)
Theorem C9_modulo_divisor_never_zero (dir : string) :
  (forall s : Simple.App,
     Simple.Reach dir s ->
     (Simple.playing s = false -> Simple.startShown s = true ->
      2 <= List.length (Simple.uris (Simple.start s)) /\
      1 <= Simple.uploadedClips (Simple.start s)) /\
     (Simple.playing s = true ->
      0 < List.length (Simple.uris s) /\
      1 <= Simple.uploadedClips s /\
      exists k,
        Simple.index s = Some k /\
        Simple.bufferIndex s
          = Some ((k + 1) mod List.length (Simple.uris s)) /\
        Simple.index (Simple.next s)
          = Some ((k + 1) mod List.length (Simple.uris s)))) /\
  (forall s : Engine.App,
     Engine.Reach dir s ->
     List.length (Engine.steps s) = Engine.STEP_COUNT /\
     (Engine.setupMode s = false -> Engine.complete s = true) /\
     js_mod (Engine.currentIndex s + 1) (List.length (Engine.steps s))
       = Some (Engine.nextIndex s) /\
     js_mod (Engine.nextIndex s + 1) (List.length (Engine.steps s))
       = Some (Engine.preloadIndex s)).
Proof.
  split.
  - intros s R. split.
    + intros _ Sh. apply Nat.leb_le in Sh. split; [exact Sh|].
      apply (simple_uris_hold_a_clip dir s R).
      unfold Simple.startShown in Sh. lia.
    + intros P.
      destruct (simple_playing_uris dir s R) as [Ii Il].
      specialize (Il P). split; [exact Il|].
      split; [apply (simple_uris_hold_a_clip dir s R Il)|].
      destruct (Simple.index s) as [k|] eqn:E; [|congruence].
      exists k. split; [reflexivity|].
      unfold Simple.bufferIndex, Simple.next. cbn. rewrite E. cbn.
      rewrite js_mod_pos by lia. split; reflexivity.
  - intros s R.
    pose proof (engine_steps_length dir s R) as L.
    split; [exact L|]. split.
    + intros S. rewrite complete_all_truthy.
      apply (engine_playback_complete dir s R S).
    + unfold Engine.nextIndex, Engine.preloadIndex.
      rewrite !js_mod_pos by (rewrite L; unfold Engine.STEP_COUNT; lia).
      split; reflexivity.
Qed.

Lemma C9_after_start_example :
  let s := Simple.started "file:///data/" in
  let e := Engine.launched "file:///data/" in
  Simple.index (Simple.next s) = Some 1 /\
  js_mod (Engine.currentIndex e + 1) (List.length (Engine.steps e)) = Some 1 /\
  js_mod (Engine.nextIndex e + 1) (List.length (Engine.steps e)) = Some 2.
Proof.
  cbv zeta.
  assert (Rs : Simple.Reach "file:///data/" (Simple.started "file:///data/")).
  { pose proof (Simple.R_initial "file:///data/") as R0.
    pose proof (Simple.R_pick _ _ _ 0 (Simple.Picked "a.mov") true true
                  R0 eq_refl R0) as R1.
    pose proof (Simple.R_pick _ _ _ 1 (Simple.Picked "b.mov") true true
                  R1 eq_refl R1) as R2.
    exact (Simple.R_start _ _ R2 eq_refl eq_refl). }
  assert (Re : Engine.Reach "file:///data/" (Engine.launched "file:///data/")).
  { unfold Engine.launched. apply Engine.R_start; try reflexivity.
    unfold Engine.uploaded.
    cbn [seq Engine.STEP_COUNT fold_left].
    repeat apply Engine.R_upload. apply Engine.R_initial. }
  destruct (C9_modulo_divisor_never_zero "file:///data/") as (HS & HE).
  destruct (proj2 (HS _ Rs) eq_refl) as (_ & _ & k & Hk & _ & Hn).
  destruct (HE _ Re) as (_ & _ & H1 & H2).
  split; [|split; [exact H1|exact H2]].
  rewrite Hn. injection Hk as <-. reflexivity.
Defined.

End IndexFacts.

(* ------------------------------------------------------------------ *)
(** ** More about the engine: uploads, saved files, the playback session *)

Module EngineMore.

Import Engine.

(** *** Uploads *)

Lemma update_nth_same {T : Type} (i : nat) (v : T) :
  forall l, i < List.length l -> nth_error (update_nth i v l) i = Some v.
Proof.
  induction i as [|i IH]; intros [|x l] H; cbn in *; try lia; auto.
  apply IH. lia.
Qed.

Lemma update_nth_other {T : Type} (i j : nat) (v : T) :
  forall l, j <> i -> nth_error (update_nth i v l) j = nth_error l j.
Proof.
  revert j. induction i as [|i IH]; intros [|j] [|x l] H; cbn; auto;
    try congruence.
Qed.

Lemma update_nth_ids (i : nat) (u : option string) :
  forall l st,
    nth_error l i = Some st ->
    map id (update_nth i (mkStep (id st) u) l) = map id l.
Proof.
  induction i as [|i IH]; intros [|x l] st H; cbn in *; try discriminate.
  - injection H as ->. reflexivity.
  - f_equal. apply IH. exact H.
Qed.

Lemma handleUpload_done (s : App) (i : nat) (src : string) (st : VideoStep) :
  nth_error (steps s) i = Some st ->
  run (handleUpload i (Picked src) true) s =
    with_steps
      (update_nth i (mkStep (id st) (Some (VIDEO_DIR s ++ saved_name i)%string))
         (steps s)) s.
Proof.
  intros H.
  unfold run, handleUpload, try_catch, try_catch_finally, set_uri, modify,
    ret, saved_name.
  rewrite H. reflexivity.
Qed.

(** A completed upload of step [index] gives that step the uri
    [VIDEO_DIR + "step_<index>.mp4"] and keeps its id; every other step,
    the number of steps and all ids are as before, and no alert is
    raised. *)
Theorem upload_sets_the_step (s : App) (i : nat) (src : string)
  (st : VideoStep) :
  nth_error (steps s) i = Some st ->
  let s' := run (handleUpload i (Picked src) true) s in
  nth_error (steps s') i
    = Some (mkStep (id st) (Some (VIDEO_DIR s ++ saved_name i)%string)) /\
  (forall j, j <> i -> nth_error (steps s') j = nth_error (steps s) j) /\
  List.length (steps s') = List.length (steps s) /\
  map id (steps s') = map id (steps s) /\
  alerts s' = alerts s.
Proof.
  intros H s'. unfold s'. rewrite (handleUpload_done s i src st H).
  assert (Hlt : i < List.length (steps s))
    by (apply nth_error_Some; congruence).
  destruct s as [dir l sm il ci ap it tm pa pb tr al]; cbn in *.
  split; [apply update_nth_same; exact Hlt|].
  split; [intros j Hj; apply update_nth_other; exact Hj|].
  split; [apply IndexFacts.update_nth_length|].
  split; [apply update_nth_ids; exact H|reflexivity].
Qed.

Lemma upload_sets_the_step_example :
  let s := initial "file:///data/" in
  let s' := run (handleUpload 3 (Picked "picked.mov") true) s in
  nth_error (steps s') 3
    = Some (mkStep 3 (Some "file:///data/videos/step_3.mp4"%string)) /\
  nth_error (steps s') 4 = Some (mkStep 4 None).
Proof.
  cbv zeta.
  destruct (upload_sets_the_step (initial "file:///data/") 3 "picked.mov"
              (mkStep 3 None) eq_refl) as (H3 & Hother & _).
  split; [exact H3|]. rewrite Hother by discriminate. reflexivity.
Defined.

(** An upload that is cancelled changes nothing.  One whose copy rejects,
    or whose step does not exist, raises the Upload Error alert and leaves
    the steps as they were. *)
Theorem upload_failure_keeps_steps (s : App) (i : nat) (src : string)
  (ok : bool) :
  run (handleUpload i Canceled ok) s = s /\
  run (handleUpload i (Picked src) false) s
    = with_alerts (alerts s ++ [UploadError]) s /\
  (List.length (steps s) <= i ->
   run (handleUpload i (Picked src) true) s
     = with_alerts (alerts s ++ [UploadError]) s).
Proof.
  split; [reflexivity|]. split; [reflexivity|].
  intros H. apply nth_error_None in H.
  unfold run, handleUpload, try_catch, try_catch_finally, set_uri, modify,
    throw, alert, ret.
  rewrite H. reflexivity.
Qed.

Lemma upload_failure_example :
  let s := initial "file:///data/" in
  let s' := run (handleUpload 7 (Picked "picked.mov") true) s in
  alerts s' = [UploadError] /\ steps s' = steps s.
Proof.
  cbv zeta.
  destruct (upload_failure_keeps_steps (initial "file:///data/") 7
              "picked.mov" true) as (_ & _ & H).
  rewrite H by (cbn; lia). split; reflexivity.
Defined.

(** *** Saved files *)

Lemma parse_saved_name (i : nat) :
  i < STEP_COUNT -> parse_index (saved_name i) = Some (Z.of_nat i).
Proof.
  unfold STEP_COUNT. intros H.
  do 5 (destruct i as [|i]; [reflexivity|]). lia.
Qed.

Lemma assign_saved_name (dir : string) (i : nat) (rest : list DirEntry)
  (l l' : list VideoStep) :
  i < STEP_COUNT ->
  set_uri i (dir ++ saved_name i)%string l = Some l' ->
  assign_saved dir (entry_of (saved_name i) :: rest) l
    = assign_saved dir rest l'.
Proof.
  intros Hi Hs. cbn [assign_saved entry_of parsed name].
  rewrite (parse_saved_name i Hi).
  assert (H1 : (Z.of_nat i <? Z.of_nat STEP_COUNT)%Z = true)
    by (apply Z.ltb_lt; lia).
  assert (H2 : (Z.of_nat i <? 0)%Z = false) by (apply Z.ltb_ge; lia).
  rewrite H1, H2, Nat2Z.id, Hs. reflexivity.
Qed.

(** Uploads are found again: on an application with its five steps,
    [loadSavedAssets] over the file names that uploads of the steps [ixs]
    wrote gives the steps exactly the uris those uploads gave them. *)
Theorem saved_uploads_are_restored (src : string) (ixs : list nat) :
  forall s : App,
    Forall (fun i => i < STEP_COUNT) ixs ->
    List.length (steps s) = STEP_COUNT ->
    steps (run (loadSavedFiles true (map saved_name ixs)) s)
      = steps (fold_left
                 (fun t i => run (handleUpload i (Picked src) true) t) ixs s).
Proof.
  induction ixs as [|i ixs IH]; intros s F L.
  - reflexivity.
  - inversion F as [|? ? Hi F']; subst.
    assert (Hlt : i < List.length (steps s)) by (rewrite L; exact Hi).
    destruct (nth_error (steps s) i) as [st|] eqn:E;
      [|apply nth_error_None in E; lia].
    cbn [fold_left]. rewrite (handleUpload_done s i src st E).
    set (l' := update_nth i
                 (mkStep (id st) (Some (VIDEO_DIR s ++ saved_name i)%string))
                 (steps s)).
    assert (Hs : set_uri i (VIDEO_DIR s ++ saved_name i)%string (steps s)
                 = Some l') by (unfold set_uri; rewrite E; reflexivity).
    rewrite <- (IH (with_steps l' s) F');
      [|cbn; unfold l'; rewrite IndexFacts.update_nth_length; exact L].
    unfold run, loadSavedFiles, loadSavedAssets. cbn [map snd steps with_steps].
    rewrite (assign_saved_name _ i _ _ l' Hi Hs).
    destruct s; reflexivity.
Qed.

Lemma saved_uploads_example :
  map uri (steps (run (loadSavedFiles true
                         ["step_2.mp4"; "step_0.mp4"]%string)
                    (initial "file:///data/")))
  = [Some "file:///data/videos/step_0.mp4"%string; None;
     Some "file:///data/videos/step_2.mp4"%string; None; None].
Proof.
  change ["step_2.mp4"; "step_0.mp4"]%string with (map saved_name [2; 0]).
  rewrite (saved_uploads_are_restored "picked.mov" [2; 0]
             (initial "file:///data/")).
  - vm_compute. reflexivity.
  - repeat constructor.
  - reflexivity.
Defined.

Lemma assign_saved_skipped (dir : string) (files : list string) :
  forall l,
    Forall skipped files ->
    assign_saved dir (map entry_of files) l = (Normal tt, l).
Proof.
  induction files as [|f files IH]; intros l F; [reflexivity|].
  inversion F as [|? ? Hf F']; subst.
  cbn [map assign_saved entry_of parsed]. unfold skipped in Hf.
  destruct (parse_index f) as [z|]; [|apply IH; exact F'].
  assert (H : (z <? Z.of_nat STEP_COUNT)%Z = false) by (apply Z.ltb_ge; lia).
  rewrite H. apply IH. exact F'.
Qed.

(** The scan of the saved files skips every name whose index is NaN or
    not below [STEP_COUNT]: a directory with only such names, or one that
    cannot be read, leaves the steps as they are. *)
Theorem saved_files_out_of_range_are_skipped (s : App) (files : list string)
  (ok : bool) :
  steps (run (loadSavedFiles false files) s) = steps s /\
  (Forall skipped files -> steps (run (loadSavedFiles ok files) s) = steps s).
Proof.
  split; [reflexivity|]. intros F.
  unfold run, loadSavedFiles, loadSavedAssets.
  destruct ok; [|reflexivity].
  cbn. rewrite (assign_saved_skipped _ files _ F). reflexivity.
Qed.

Lemma saved_files_skipped_example :
  let s := initial "file:///data/" in
  steps (run (loadSavedFiles true
                ["notes.txt"; "step_7.mp4"; "step_x.mp4"; "clip_.mov"]%string)
           s) = steps s.
Proof.
  cbv zeta.
  apply (saved_files_out_of_range_are_skipped (initial "file:///data/")).
  repeat constructor; unfold skipped; vm_compute; congruence.
Defined.

(** A name whose index parses to a negative number ends the scan: the
    write to [updatedSteps[index]] throws, the catch swallows it, and the
    names after it are never looked at. *)
Theorem saved_file_negative_index_ends_scan (s : App) (file : string)
  (rest : list string) (z : Z) :
  parse_index file = Some z -> (z < 0)%Z ->
  steps (run (loadSavedFiles true (file :: rest)) s) = steps s.
Proof.
  intros P N.
  unfold run, loadSavedFiles, loadSavedAssets.
  cbn [map snd steps with_steps assign_saved entry_of parsed]. rewrite P.
  assert (H1 : (z <? Z.of_nat STEP_COUNT)%Z = true)
    by (apply Z.ltb_lt; unfold STEP_COUNT; lia).
  assert (H2 : (z <? 0)%Z = true) by (apply Z.ltb_lt; exact N).
  rewrite H1, H2. reflexivity.
Qed.

Lemma saved_file_negative_example :
  let s := initial "file:///data/" in
  steps (run (loadSavedFiles true ["step_-1.mp4"; "step_0.mp4"]%string) s)
    = steps s.
Proof.
  cbv zeta.
  apply (saved_file_negative_index_ends_scan (initial "file:///data/")
           "step_-1.mp4" ["step_0.mp4"%string] (-1)%Z); [reflexivity|lia].
Defined.

(** *** The playback session *)

(** A tap on a free lock either runs to its end (index moved, one timer
    registered) or stops at a rejected call (index and timers as before). *)
Lemma tap_cases (env : TapEnv) (s : App) :
  isTransitioning s = false ->
  let s' := run (handleGlobalTap env) s in
  (fst (handleGlobalTap env s) = Normal tt /\
   timers s' = S (timers s) /\ currentIndex s' = nextIndex s) \/
  (fst (handleGlobalTap env s) = Thrown /\
   timers s' = timers s /\ currentIndex s' = currentIndex s).
Proof.
  intros L. cbv zeta. unfold run.
  rewrite (EngineFacts.tap_unlocked env s L).
  pose proof (EngineFacts.swap_body_keeps_timers env (activePlayer s)
                (preloadIndex s) (with_isTransitioning true s)) as Kt.
  pose proof (EngineFacts.swap_body_keeps_currentIndex env (activePlayer s)
                (preloadIndex s) (with_isTransitioning true s)) as Kc.
  unfold bind. cbn [modify].
  destruct (swap_body env (activePlayer s) (preloadIndex s)
              (with_isTransitioning true s)) as [[x|] s2]; cbn in Kt, Kc |- *.
  - left. rewrite Kt. auto.
  - right. auto.
Qed.

Lemma start_keeps_session (env : StartEnv) (s : App) :
  let s' := commit (run (startExperience env) s) in
  currentIndex s' = currentIndex s /\ timers s' = timers s /\
  isTransitioning s' = isTransitioning s /\ activePlayer s' = activePlayer s.
Proof.
  cbv zeta. destruct s as [dir st sm il ci ap it tm pa pb tr al].
  EngineFacts.engine_unfold. unfold commit. cbn.
  destruct (existsb _ st); cbn; [destruct sm; cbn; auto|].
  destruct env as [[|] [|]], pa, pb, st as [|x0 [|x1 rest]]; cbn;
    try (destruct sm; cbn); auto.
Qed.

Lemma upload_keeps_session (i : nat) (res : PickResult) (ok : bool)
  (s : App) :
  let s' := run (handleUpload i res ok) s in
  currentIndex s' = currentIndex s /\ timers s' = timers s /\
  isTransitioning s' = isTransitioning s /\ setupMode s' = setupMode s.
Proof.
  cbv zeta.
  unfold run, handleUpload, try_catch, try_catch_finally, alert, modify,
    throw, ret.
  destruct res as [|src]; [auto|].
  destruct ok; [destruct (set_uri i _ (steps s))|]; cbn; auto.
Qed.

Lemma settle_keeps_session (p : Player) (ok : bool) (s : App) :
  let s' := settle p ok s in
  currentIndex s' = currentIndex s /\ timers s' = timers s /\
  isTransitioning s' = isTransitioning s /\ setupMode s' = setupMode s /\
  activePlayer s' = activePlayer s /\ trace s' = trace s.
Proof.
  cbv zeta. unfold settle.
  destruct (current p s) as [[| | |]|]; try (repeat split; reflexivity).
  destruct p; cbn; repeat split; reflexivity.
Qed.

Lemma reach_session_inv (dir : string) (s : App) :
  Reach dir s -> SessionInv s.
Proof.
  unfold SessionInv.
  induction 1 as [|s ok files R IH|s i res ok R IH|s env R IH Hs Hl
                 |s env R IH Hs|s R IH|s p ok R IH].
  - cbn. unfold STEP_COUNT. repeat split; lia.
  - unfold run, loadSavedAssets. destruct ok; cbn; exact IH.
  - destruct (upload_keeps_session i res ok s) as (E1 & E2 & E3 & _).
    rewrite E1, E2, E3. exact IH.
  - destruct (start_keeps_session env s) as (E1 & E2 & E3 & _).
    rewrite E1, E2, E3. exact IH.
  - destruct IH as (Hi & Ht & Hl).
    pose proof (IndexFacts.engine_steps_length dir s R) as Len.
    pose proof (EngineFacts.tap_leaves_locked env s) as Lk.
    destruct (isTransitioning s) eqn:L.
    + unfold run. rewrite (EngineFacts.tap_locked env s L). cbn.
      rewrite L. auto.
    + specialize (Hl eq_refl). rewrite Lk.
      destruct (tap_cases env s L) as [(_ & Et & Ec)|(_ & Et & Ec)];
        rewrite Et, Ec, Hl.
      * split; [|split; [lia|discriminate]].
        unfold nextIndex. rewrite Len. apply Nat.mod_upper_bound.
        unfold STEP_COUNT. lia.
      * split; [exact Hi|split; [lia|discriminate]].
  - destruct IH as (Hi & Ht & Hl). unfold timeout.
    destruct (timers s) as [|n] eqn:T.
    + rewrite T. split; [exact Hi|]. split; [lia|reflexivity].
    + cbn. split; [exact Hi|]. split; [lia|intros _; lia].
  - destruct (settle_keeps_session p ok s) as (E1 & E2 & E3 & _).
    rewrite E1, E2, E3. exact IH.
Qed.

Lemma safe_bind (pre : nat) (m : M App unit) (k : unit -> M App unit) :
  safe pre m -> (forall x, safe pre (k x)) -> safe pre (bind m k).
Proof.
  intros Hm Hk s H. unfold bind. destruct (Hm s H) as [Hf Hs].
  destruct (m s) as [[x|] s1]; cbn in *; [|discriminate].
  rewrite <- Hs in H. destruct (Hk x s1 H) as [Hf' Hs'].
  split; [exact Hf'|congruence].
Qed.

Ltac safe_prim :=
  let s := fresh "s" in
  let H := fresh "H" in
  intros s H; destruct s;
  unfold await_playAsync, await_unloadAsync, loadAsync_detached,
    setTimeout_release, log, modify, bind, throw, ret, with_current,
    current, all_ok in *; cbn in *;
  repeat match goal with
         | |- context [match ?x with _ => _ end] => destruct x; cbn
         end;
  split; reflexivity || congruence.

Lemma tap_body_safe (s0 : App) (pre : nat) :
  safe pre
    (bind (swap_body all_ok (activePlayer s0) pre) (fun _ =>
     bind (modify (with_currentIndex (nextIndex s0))) (fun _ =>
     setTimeout_release))).
Proof.
  apply safe_bind; [|intros _; apply safe_bind; [safe_prim|intros _; safe_prim]].
  unfold swap_body. destruct (activePlayer s0);
    repeat (apply safe_bind; [|intros _]); safe_prim.
Qed.

(** In every state of the application [currentIndex] is a valid position
    of [steps], and a tap whose surface calls resolve runs to its end: no
    index computed by the handler falls outside the steps. *)
Theorem tap_stays_within_steps (dir : string) (s : App) :
  Reach dir s ->
  currentIndex s < List.length (steps s) /\
  fst (handleGlobalTap all_ok s) = Normal tt /\
  currentIndex (run (handleGlobalTap all_ok) s) < List.length (steps s).
Proof.
  intros R.
  destruct (reach_session_inv dir s R) as (Hi & _).
  pose proof (IndexFacts.engine_steps_length dir s R) as Len.
  assert (Hpos : 0 < List.length (steps s))
    by (rewrite Len; unfold STEP_COUNT; lia).
  split; [rewrite Len; exact Hi|].
  destruct (isTransitioning s) eqn:L.
  - unfold run. rewrite (EngineFacts.tap_locked all_ok s L). cbn.
    split; [reflexivity|rewrite Len; exact Hi].
  - assert (N : fst (handleGlobalTap all_ok s) = Normal tt).
    { rewrite (EngineFacts.tap_unlocked all_ok s L).
      apply (tap_body_safe s (preloadIndex s) (with_isTransitioning true s)).
      destruct s; apply (EngineFacts.preload_in_range _ Hpos). }
    split; [exact N|].
    destruct (tap_cases all_ok s L) as [(_ & _ & Ec)|(T & _)];
      [|congruence].
    rewrite Ec. unfold nextIndex. apply Nat.mod_upper_bound. lia.
Qed.

Lemma launched_reachable :
  Reach "file:///data/" (launched "file:///data/").
Proof.
  unfold launched. apply R_start; try reflexivity.
  unfold uploaded. cbn [seq STEP_COUNT fold_left].
  repeat apply R_upload. apply R_initial.
Qed.

Lemma tap_stays_within_steps_example :
  let s := launched "file:///data/" in
  currentIndex s < 5 /\ fst (handleGlobalTap all_ok s) = Normal tt.
Proof.
  cbv zeta.
  destruct (tap_stays_within_steps _ _ launched_reachable) as (H1 & H2 & _).
  split; [exact H1|exact H2].
Defined.

(** At most one release timer is ever pending, and none while the lock is
    free: the callback of a tap can only release the lock that this same
    tap took. *)
Theorem one_release_timer_per_lock (dir : string) (s : App) :
  Reach dir s ->
  timers s <= 1 /\
  (isTransitioning s = false -> timers s = 0) /\
  (timers s = 1 -> isTransitioning s = true /\
                   isTransitioning (timeout s) = false /\
                   timers (timeout s) = 0).
Proof.
  intros R. destruct (reach_session_inv dir s R) as (_ & Ht & Hl).
  split; [exact Ht|]. split; [exact Hl|].
  intros T. split.
  - destruct (isTransitioning s); [reflexivity|].
    specialize (Hl eq_refl). lia.
  - unfold timeout. rewrite T. split; reflexivity.
Qed.

Lemma one_release_timer_example :
  let s := run (handleGlobalTap all_ok) (launched "file:///data/") in
  timers s = 1 /\ isTransitioning s = true /\
  isTransitioning (timeout s) = false.
Proof.
  cbv zeta.
  assert (R : Reach "file:///data/"
                (run (handleGlobalTap all_ok) (launched "file:///data/")))
    by (apply R_tap; [exact launched_reachable|reflexivity]).
  destruct (one_release_timer_per_lock _ _ R) as (_ & _ & H).
  destruct (H eq_refl) as (H1 & H2 & _).
  split; [reflexivity|]. split; [exact H1|exact H2].
Defined.

Lemma frozen_react (s : App) (i : Input) :
  Frozen s ->
  Frozen (react s i) /\
  currentIndex (react s i) = currentIndex s /\
  activePlayer (react s i) = activePlayer s /\
  trace (react s i) = trace s.
Proof.
  intros [L T]. destruct i as [env| |p ok]; cbn [react].
  - unfold run. rewrite (EngineFacts.tap_locked env s L). cbn.
    repeat split; assumption.
  - unfold timeout. rewrite T. repeat split; assumption.
  - destruct (settle_keeps_session p ok s) as (E1 & E2 & E3 & _ & E5 & E6).
    unfold Frozen. rewrite E1, E2, E3, E5, E6. repeat split; assumption.
Qed.

Lemma frozen_reacts (inputs : list Input) :
  forall s,
    Frozen s ->
    Frozen (reacts inputs s) /\
    currentIndex (reacts inputs s) = currentIndex s /\
    activePlayer (reacts inputs s) = activePlayer s /\
    trace (reacts inputs s) = trace s.
Proof.
  unfold reacts.
  induction inputs as [|i inputs IH]; intros s F; cbn [fold_left].
  - repeat split; try reflexivity; apply F.
  - destruct (frozen_react s i F) as (F' & E1 & E2 & E3).
    destruct (IH _ F') as (F'' & E1' & E2' & E3').
    rewrite E1', E2', E3', E1, E2, E3. repeat split; try reflexivity.
    + apply F''.
    + apply F''.
Qed.

(** One rejected surface call ends playback for good.  When a tap on a
    free lock stops at a rejected [playAsync] or [unloadAsync], then
    whatever taps, timer callbacks and load completions follow, the lock
    stays held, no surface call is issued any more, and [currentIndex]
    stays where it was before that tap. *)
Theorem rejected_tap_freezes_playback (dir : string) (s : App)
  (env : TapEnv) (inputs : list Input) :
  Reach dir s ->
  isTransitioning s = false ->
  fst (handleGlobalTap env s) = Thrown ->
  let s1 := run (handleGlobalTap env) s in
  let s2 := reacts inputs s1 in
  isTransitioning s2 = true /\
  currentIndex s2 = currentIndex s /\
  activePlayer s2 = activePlayer s1 /\
  trace s2 = trace s1.
Proof.
  intros R L T s1 s2.
  destruct (reach_session_inv dir s R) as (_ & _ & Hl).
  assert (F : Frozen s1).
  { split; [apply EngineFacts.tap_leaves_locked|].
    destruct (tap_cases env s L) as [(N & _)|(_ & Et & _)]; [congruence|].
    unfold s1. rewrite Et. apply Hl, L. }
  destruct (frozen_reacts inputs s1 F) as ((L2 & _) & E1 & E2 & E3).
  split; [exact L2|]. split; [|split; assumption].
  fold s2 in E1. rewrite E1.
  destruct (tap_cases env s L) as [(N & _)|(_ & _ & Ec)]; [congruence|].
  exact Ec.
Qed.

Lemma rejected_tap_example :
  let s := launched "file:///data/" in
  let s1 := run (handleGlobalTap (mkTapEnv false true)) s in
  let s2 := reacts [TimerFires; Tap all_ok; TimerFires; Tap all_ok] s1 in
  isTransitioning s2 = true /\ currentIndex s2 = 0 /\ trace s2 = trace s1.
Proof.
  cbv zeta.
  destruct (rejected_tap_freezes_playback _ _ (mkTapEnv false true)
              [TimerFires; Tap all_ok; TimerFires; Tap all_ok]
              launched_reachable eq_refl eq_refl) as (H1 & H2 & _ & H4).
  split; [exact H1|]. split; [exact H2|exact H4].
Defined.

(** *** The order in which clips are shown *)




(** Whatever the two surfaces hold, two advances whose calls resolve set
    the pairing up: the tap reloads the surface it retires with the clip
    two steps ahead, so after the second one the active surface is bound
    to the clip at [currentIndex] and the other one to the next clip. *)
Theorem two_advances_set_up_the_pairing (s : App) (a b : Slot) :
  isTransitioning s = false ->
  current (activePlayer s) s = Some a ->
  current (standbyPlayer s) s = Some b ->
  0 < List.length (steps s) ->
  let s2 := advance all_ok (advance all_ok s) in
  EngineInv s2 /\
  currentIndex s2 = (currentIndex s + 2) mod List.length (steps s).
Proof.
  intros L Ha Hb Hlen s2.
  destruct (EngineFacts.advance_resolved s a b L Ha Hb Hlen)
    as (Hst & Hci & Hap & Hl & Ha' & Hb').
  assert (Hlen' : 0 < List.length (steps (advance all_ok s)))
    by (rewrite Hst; exact Hlen).
  destruct (EngineFacts.advance_resolved _ _ _ Hl Ha' Hb' Hlen')
    as (Hst2 & Hci2 & Hap2 & Hl2 & Ha2 & Hb2).
  fold s2 in Hst2, Hci2, Hap2, Hl2, Ha2, Hb2.
  assert (C : currentIndex s2 = (currentIndex s + 2) mod List.length (steps s)).
  { rewrite Hci2. unfold nextIndex. rewrite Hst, Hci. unfold nextIndex.
    rewrite Nat.Div0.add_mod_idemp_l. f_equal. lia. }
  split; [|exact C].
  assert (N1 : nextIndex (advance all_ok s) = preloadIndex s)
    by (unfold nextIndex, preloadIndex; rewrite Hci, Hst; reflexivity).
  unfold EngineInv. rewrite Ha2, Hb2. cbn.
  split; [unfold standbyPlayer; destruct (activePlayer s2); discriminate|].
  split.
  - rewrite Hci2, N1. reflexivity.
  - unfold preloadIndex. rewrite Hci2, Hst2. reflexivity.
Qed.

Lemma two_advances_example :
  let s := launched "file:///data/" in
  let s2 := advance all_ok (advance all_ok s) in
  ~ EngineInv s /\ EngineInv s2 /\ currentIndex s2 = 2 /\
  clip_of (activePlayer s2) s2 = Some 2.
Proof.
  cbv zeta.
  destruct (two_advances_set_up_the_pairing (launched "file:///data/")
              Unloaded Unloaded eq_refl eq_refl eq_refl (Nat.lt_0_succ 4))
    as (I & C).
  split; [|split; [exact I|split; [exact C|reflexivity]]].
  intros (_ & H & _). vm_compute in H. discriminate.
Defined.

(** *** No way back to the setup screen *)

(** No handler sets [setupMode] again: once the playback screen is shown,
    neither a launch, a tap, an upload, the scan of the saved files, the
    timer nor a load completion brings the setup screen back. *)
Theorem playback_screen_is_never_left (s : App) :
  setupMode s = false ->
  (forall env, setupMode (commit (run (startExperience env) s)) = false) /\
  (forall env, setupMode (run (handleGlobalTap env) s) = false) /\
  (forall i res ok, setupMode (run (handleUpload i res ok) s) = false) /\
  (forall ok files, setupMode (run (loadSavedAssets ok files) s) = false) /\
  setupMode (timeout s) = false /\
  (forall p ok, setupMode (settle p ok s) = false).
Proof.
  intros S. repeat split.
  - intros env. revert S.
    destruct s as [dir st sm il ci ap it tm pa pb tr al]. cbn. intros ->.
    EngineFacts.engine_unfold. unfold commit. cbn.
    destruct (existsb _ st); cbn; [reflexivity|].
    destruct env as [[|] [|]], pa, pb, st as [|x0 [|x1 rest]]; reflexivity.
  - intros env. rewrite EngineFacts.tap_setupMode. exact S.
  - intros i res ok.
    destruct (upload_keeps_session i res ok s) as (_ & _ & _ & E).
    rewrite E. exact S.
  - intros ok files. unfold run, loadSavedAssets. destruct ok; exact S.
  - unfold timeout. destruct (timers s); exact S.
  - intros p ok.
    destruct (settle_keeps_session p ok s) as (_ & _ & _ & E & _).
    rewrite E. exact S.
Qed.

Lemma playback_never_left_example :
  let s := launched "file:///data/" in
  setupMode (run (handleGlobalTap all_ok) s) = false /\
  setupMode (commit (run (startExperience (mkStartEnv true true)) s)) = false.
Proof.
  cbv zeta.
  destruct (playback_screen_is_never_left (launched "file:///data/") eq_refl)
    as (H1 & H2 & _).
  split; [apply H2|apply H1].
Defined.

End EngineMore.

(* ------------------------------------------------------------------ *)
(** ** Facts about the simple player *)

Module SimpleFacts.

Import Simple.

Lemma js_assign_same {T : Type} (i : nat) (v : T) :
  forall arr, nth_error (js_assign arr i v) i = Some (Some v).
Proof.
  induction i as [|i IH]; intros [|x arr]; cbn; auto.
Qed.

Lemma js_get_assign_other (i : nat) (v : string) :
  forall (arr : list (option string)) (j : nat),
    j <> i -> js_get (js_assign arr i v) j = js_get arr j.
Proof.
  unfold js_get.
  induction i as [|i IH]; intros [|x arr] [|j] H; cbn; try congruence.
  - destruct j; reflexivity.
  - assert (Hj : j <> i) by congruence.
    specialize (IH [] j Hj). rewrite IH. destruct j; reflexivity.
  - apply IH. congruence.
Qed.

Lemma js_assign_length_max {T : Type} (i : nat) (v : T) :
  forall arr,
    List.length (js_assign arr i v) = Nat.max (List.length arr) (S i).
Proof.
  induction i as [|i IH]; intros [|x arr]; cbn [js_assign List.length];
    rewrite ?IH; cbn [List.length]; lia.
Qed.

Lemma pick_uris (seen : list (option string)) (i : nat) (src : string)
  (store_ok : bool) (s : App) :
  uris (run (pickVideo seen i (Picked src) true store_ok) s)
    = js_assign seen i (pathOf s i).
Proof.
  unfold run, pickVideo, bind, modify, throw. destruct store_ok; reflexivity.
Qed.

(** A completed upload of step [i] builds the new array from the array
    [seen] of the render whose button was pressed: position [i] holds the
    new path, every other position holds what [seen] held there (so an
    upload that completed after that render is dropped again), and the
    array has grown to reach position [i].  The array is persisted when
    [setItem] resolves; when it rejects the state is updated all the same
    and the persisted copy is the old one. *)
Theorem pick_writes_its_position (seen : list (option string)) (i : nat)
  (src : string) (store_ok : bool) (s : App) :
  let s' := run (pickVideo seen i (Picked src) true store_ok) s in
  js_get (uris s') i = Some (pathOf s i) /\
  (forall j, j <> i -> js_get (uris s') j = js_get seen j) /\
  List.length (uris s') = Nat.max (List.length seen) (S i) /\
  vids s' = (if store_ok then Some (uris s') else vids s) /\
  playing s' = playing s /\ index s' = index s.
Proof.
  cbv zeta. rewrite pick_uris. split; [|split; [|split; [|split]]].
  - unfold js_get. rewrite js_assign_same. reflexivity.
  - intros j Hj. apply js_get_assign_other. exact Hj.
  - apply js_assign_length_max.
  - unfold run, pickVideo, bind, modify, throw.
    destruct store_ok; reflexivity.
  - unfold run, pickVideo, bind, modify, throw.
    destruct store_ok; split; reflexivity.
Qed.

(** The start button looks at the length of the array only: after a single
    upload to any step but the first, on a fresh application, the button is
    shown, and playback then starts with no source for the visible player
    ([uris[0]] is a hole). *)
Theorem start_is_offered_with_first_step_missing (dir : string) (i : nat)
  (src : string) :
  1 <= i ->
  let s := run (pickVideo [] i (Picked src) true true) (initial dir) in
  startShown s = true /\
  playing (start s) = true /\
  visibleSource (start s) = None /\
  js_get (uris s) i = Some (pathOf (initial dir) i).
Proof.
  intros H s.
  assert (E : uris s = js_assign [] i (pathOf (initial dir) i))
    by apply pick_uris.
  split; [|split; [reflexivity|split]].
  - unfold startShown. rewrite E, js_assign_length_max.
    apply Nat.leb_le. cbn. lia.
  - unfold visibleSource. cbn [start index with_playing uris].
    replace (index s) with (Some 0) by reflexivity.
    rewrite E, js_get_assign_other by lia. reflexivity.
  - rewrite E. unfold js_get. rewrite js_assign_same. reflexivity.
Qed.

Lemma start_with_first_step_missing_example :
  let s := run (pickVideo [] 2 (Picked "c.mov") true true)
             (initial "file:///data/") in
  startShown s = true /\ visibleSource (start s) = None.
Proof.
  cbv zeta.
  destruct (start_is_offered_with_first_step_missing "file:///data/" 2
              "c.mov" (le_S _ _ (le_n 1))) as (H1 & _ & H3 & _).
  split; [exact H1|exact H3].
Defined.

Lemma next_effect (s : App) (i : nat) :
  index s = Some i -> 0 < List.length (uris s) ->
  index (next s) = Some ((i + 1) mod List.length (uris s)) /\
  uris (next s) = uris s /\
  activePlayer (next s) = flip (activePlayer s) /\
  playing (next s) = playing s.
Proof.
  intros Hi Hn. unfold next. cbn. rewrite Hi. cbn.
  rewrite IndexFacts.js_mod_pos by exact Hn.
  destruct (activePlayer s); repeat split; reflexivity.
Qed.

(** Presses on the playing screen walk through the array in order and wrap
    around: after [k] presses [index] is [(index + k) mod uris.length], the
    active player has been exchanged [k] times, and what the visible player
    shows after one press is what the hidden buffer player was given
    before it. *)
Theorem presses_walk_in_order (k : nat) :
  forall (s : App) (i : nat),
    index s = Some i -> i < List.length (uris s) ->
    let n := List.length (uris s) in
    index (presses k s) = Some ((i + k) mod n) /\
    uris (presses k s) = uris s /\
    activePlayer (presses k s)
      = (if Nat.even k then activePlayer s else flip (activePlayer s)) /\
    visibleSource (next s) = bufferSource s.
Proof.
  induction k as [|k IH]; intros s i Hi Hlt n.
  - cbn [presses Nat.even]. rewrite Nat.add_0_r, Nat.mod_small by exact Hlt.
    split; [exact Hi|]. split; [reflexivity|]. split; reflexivity.
  - cbn [presses].
    destruct (next_effect s i Hi) as (E1 & E2 & E3 & _); [lia|].
    destruct (IH (next s) _ E1) as (H1 & H2 & H3 & _).
    { rewrite E2. apply Nat.mod_upper_bound. lia. }
    rewrite E2 in H1, H2. split; [|split; [exact H2|split]].
    + rewrite H1. fold n. rewrite Nat.Div0.add_mod_idemp_l.
      f_equal. f_equal. lia.
    + rewrite H3, E3, Nat.even_succ, <- Nat.negb_even.
      destruct (Nat.even k), (activePlayer s); reflexivity.
    + reflexivity.
Qed.

Lemma presses_example :
  let s := started "file:///data/" in
  index (presses 3 s) = Some 1 /\ uris (presses 3 s) = uris s /\
  activePlayer (presses 3 s) = B.
Proof.
  cbv zeta.
  destruct (presses_walk_in_order 3 (started "file:///data/") 0 eq_refl
              (Nat.lt_0_succ 1)) as (H1 & H2 & H3 & _).
  split; [exact H1|]. split; [exact H2|exact H3].
Defined.

End SimpleFacts.

(* ------------------------------------------------------------------ *)
(** ** More about the video store: lookups, failures, restarts *)

Module StoreMore.

Import Store.

(** *** Lookups *)

Lemma find_none_iff (n : Z) (l : list VideoStep) :
  find (hasStep n) l = None <-> (forall v, In v l -> stepNumber v <> n).
Proof.
  split.
  - intros H v Hin E.
    apply (find_none _ _ H) in Hin. unfold hasStep in Hin.
    rewrite E, Z.eqb_refl in Hin. discriminate.
  - intros H. destruct (find (hasStep n) l) as [v|] eqn:E; [|reflexivity].
    apply find_some in E. destruct E as [Hin Hv].
    unfold hasStep in Hv. apply Z.eqb_eq in Hv.
    exfalso. apply (H v Hin Hv).
Qed.

Lemma find_unique (l : list VideoStep) (v : VideoStep) :
  OnePerStep l -> In v l -> find (hasStep (stepNumber v)) l = Some v.
Proof.
  unfold OnePerStep. induction l as [|x l IH]; cbn; intros N Hin; [tauto|].
  inversion N as [|? ? Hx N']; subst.
  unfold hasStep at 1.
  destruct (Z.eqb_spec (stepNumber x) (stepNumber v)) as [E|E].
  - destruct Hin as [->|Hin]; [reflexivity|].
    exfalso. apply Hx. rewrite E. apply in_map. exact Hin.
  - destruct Hin as [->|Hin]; [congruence|]. apply IH; assumption.
Qed.

Lemma find_filter_head (f : VideoStep -> bool) (l : list VideoStep) :
  find f l = hd_error (filter f l).
Proof.
  induction l as [|x l IH]; cbn; [reflexivity|].
  destruct (f x); [reflexivity|exact IH].
Qed.

Lemma lookup_same_members (m : Z) (l l' : list VideoStep) :
  OnePerStep l -> OnePerStep l' ->
  (forall w, stepNumber w = m -> In w l' <-> In w l) ->
  find (hasStep m) l' = find (hasStep m) l.
Proof.
  intros N N' H.
  destruct (find (hasStep m) l) as [w|] eqn:E.
  - apply find_some in E. destruct E as [Hin Hw].
    unfold hasStep in Hw. apply Z.eqb_eq in Hw. subst m.
    apply find_unique; [exact N'|]. apply H; [reflexivity|exact Hin].
  - apply find_none_iff. intros v Hv Ev.
    rewrite find_none_iff in E. apply (E v); [|exact Ev].
    apply H; assumption.
Qed.

Lemma filter_out_members (n : Z) (l : list VideoStep) (w : VideoStep) :
  stepNumber w <> n ->
  In w (filter (fun v => negb (hasStep n v)) l) <-> In w l.
Proof.
  intros H. rewrite filter_In. unfold hasStep.
  destruct (Z.eqb_spec (stepNumber w) n); [contradiction|]. cbn. tauto.
Qed.

(** Lookups after the two updates.  When [addVideo] gets as far as storing,
    [getVideoByStep] of its step returns the new entry; when [removeVideo]
    gets as far as storing, [getVideoByStep] of its step returns nothing;
    and on a list with one entry per step neither changes what
    [getVideoByStep] returns for any other step. *)
Theorem lookup_after_add_and_remove (s : VideoStore) (n m : Z)
  (src name : string) (now : Z) (io : IoEnv) :
  copy_ok io = true -> delete_ok io = true ->
  let added := run (addVideo n src name now io) s in
  let removed := run (removeVideo n io) s in
  getVideoByStep n added = Some (newVideoOf (VIDEO_DIR s) n name now) /\
  getVideoByStep n removed = None /\
  (OnePerStep (videos s) -> m <> n ->
   getVideoByStep m added = getVideoByStep m s /\
   getVideoByStep m removed = getVideoByStep m s).
Proof.
  intros C D added removed. unfold getVideoByStep, added, removed.
  rewrite StoreFacts.addVideo_videos, StoreFacts.removeVideo_videos.
  assert (E : reaches_set io n s = true).
  { unfold reaches_set. rewrite C, D.
    destruct (find (hasStep n) (videos s)); reflexivity. }
  rewrite E, D.
  replace (match find (hasStep n) (videos s) with
           | Some _ => true
           | None => true
           end) with true
    by (destruct (find (hasStep n) (videos s)); reflexivity).
  set (v := newVideoOf (VIDEO_DIR s) n name now).
  split; [|split].
  - rewrite find_filter_head.
    change n with (stepNumber v) at 1.
    rewrite StoreFacts.addedTo_single. reflexivity.
  - apply find_none_iff. intros w Hw Ew.
    apply filter_In in Hw. destruct Hw as [_ Hw].
    unfold hasStep in Hw. rewrite Ew, Z.eqb_refl in Hw. discriminate.
  - intros N Hm. split.
    + apply lookup_same_members; [exact N| |].
      * apply (StoreFacts.addedTo_inv (videos s) v N).
      * intros w Ew. apply StoreFacts.addedTo_others.
        change (stepNumber v) with n. congruence.
    + apply lookup_same_members;
        [exact N|apply StoreFacts.filter_onePerStep; exact N|].
      intros w Ew. apply filter_out_members. congruence.
Qed.

Lemma lookup_after_add_example :
  let s := two_videos in
  let s' := run (addVideo 1 "file:///picked/c.mov" "c.mov" 1700000000300
                   all_io) s in
  option_map originalName (getVideoByStep 1 s') = Some "c.mov"%string /\
  getVideoByStep 2 s' = getVideoByStep 2 s /\
  getVideoByStep 1 (run (removeVideo 1 all_io) s) = None.
Proof.
  cbv zeta.
  destruct (lookup_after_add_and_remove two_videos 1 2
              "file:///picked/c.mov" "c.mov" 1700000000300 all_io
              eq_refl eq_refl) as (H1 & H2 & H3).
  split; [rewrite H1; reflexivity|]. split; [|exact H2].
  apply H3; [|discriminate].
  apply (proj1 (proj1 (StoreFacts.reach_inv "file:///data/" two_videos
    ltac:(unfold two_videos; repeat apply R_add; apply R_initial)))).
Defined.

(** *** Removing *)

Lemma filter_all_kept (f : VideoStep -> bool) (l : list VideoStep) :
  (forall v, In v l -> f v = true) -> filter f l = l.
Proof.
  induction l as [|x l IH]; cbn; intros H; [reflexivity|].
  rewrite (H x) by auto. f_equal. apply IH. auto.
Qed.

(** Removing a step that has no entry deletes no file and leaves the list
    as it is; and once a removal has got as far as storing, removing the
    same step again changes nothing more, whatever its calls do. *)
Theorem remove_of_absent_step_changes_nothing (s : VideoStore) (n : Z)
  (io io' : IoEnv) :
  (getVideoByStep n s = None ->
   videos (run (removeVideo n io) s) = videos s /\
   files (run (removeVideo n io) s) = files s) /\
  (delete_ok io = true ->
   let s1 := run (removeVideo n io) s in
   videos (run (removeVideo n io') s1) = videos s1 /\
   files (run (removeVideo n io') s1) = files s1).
Proof.
  assert (G : forall t j,
    getVideoByStep n t = None ->
    videos (run (removeVideo n j) t) = videos t /\
    files (run (removeVideo n j) t) = files t).
  { intros t j H. unfold getVideoByStep in H.
    split.
    - rewrite StoreFacts.removeVideo_videos, H.
      apply filter_all_kept. intros v Hv.
      rewrite find_none_iff in H. unfold hasStep.
      destruct (Z.eqb_spec (stepNumber v) n) as [E|E]; [|reflexivity].
      exfalso. apply (H v Hv E).
    - unfold run, removeVideo, store_updated, setItem, bind, modify, throw,
        ret.
      rewrite H. destruct t, (setItem_ok j); reflexivity. }
  split; [apply G|].
  intros D s1. apply G. unfold getVideoByStep, s1.
  rewrite StoreFacts.removeVideo_videos, D.
  replace (match find (hasStep n) (videos s) with
           | Some _ => true
           | None => true
           end) with true
    by (destruct (find (hasStep n) (videos s)); reflexivity).
  apply find_none_iff. intros w Hw Ew.
  apply filter_In in Hw. destruct Hw as [_ Hw].
  unfold hasStep in Hw. rewrite Ew, Z.eqb_refl in Hw. discriminate.
Qed.

Lemma remove_absent_example :
  let s := two_videos in
  videos (run (removeVideo 5 all_io) s) = videos s /\
  files (run (removeVideo 5 all_io) s) = files s.
Proof.
  cbv zeta.
  exact (proj1 (remove_of_absent_step_changes_nothing two_videos 5
                  all_io all_io) eq_refl).
Defined.

(** *** Adding and removing again *)

Lemma js_insert_filter (g : VideoStep -> bool) (x : VideoStep) :
  forall R,
    g x = true ->
    (forall y, In y R -> g y = true -> (stepNumber x <= stepNumber y)%Z) ->
    filter g (js_insert byStep x R) = x :: filter g R.
Proof.
  induction R as [|y R IH]; intros Gx H; cbn.
  - rewrite Gx. reflexivity.
  - destruct (Z.leb_spec (byStep x y) 0) as [Hle|Hgt].
    + cbn. rewrite Gx. reflexivity.
    + unfold byStep in Hgt. cbn.
      destruct (g y) eqn:Gy.
      * specialize (H y (or_introl eq_refl) Gy). lia.
      * apply IH; [exact Gx|]. intros z Hz. apply H. right. exact Hz.
Qed.

Lemma inserted_members (v : VideoStep) (l : list VideoStep) (y : VideoStep) :
  In y (fold_right (js_insert byStep) [v] l) -> In y l \/ y = v.
Proof.
  revert y. induction l as [|x l IH]; cbn; intros y H.
  - destruct H as [<-|[]]. auto.
  - apply (Permutation_in _ (StoreFacts.js_insert_perm x _)) in H.
    destruct H as [<-|H]; [auto|].
    destruct (IH y H); auto.
Qed.

Lemma sort_then_drop (v : VideoStep) (l : list VideoStep) :
  Ascending l ->
  (forall w, In w l -> stepNumber w <> stepNumber v) ->
  filter (fun w => negb (hasStep (stepNumber v) w)) (js_sort byStep (l ++ [v]))
    = l.
Proof.
  intros S H. unfold js_sort. rewrite fold_right_app. cbn [fold_right js_insert].
  unfold Ascending in S.
  apply Sorted_StronglySorted in S; [|intros x y z; apply Z.le_trans].
  induction l as [|x l IH]; cbn [fold_right].
  - cbn. unfold hasStep. rewrite Z.eqb_refl. reflexivity.
  - cbn in S. inversion S as [|? ? S' Hall]; subst.
    rewrite js_insert_filter.
    + f_equal. apply IH; [exact S'|]. intros w Hw. apply H. right. exact Hw.
    + unfold hasStep.
      destruct (Z.eqb_spec (stepNumber x) (stepNumber v)) as [E|E];
        [|reflexivity].
      exfalso. apply (H x (or_introl eq_refl) E).
    + intros y Hy Gy. destruct (inserted_members v l y Hy) as [Hin| ->].
      * rewrite Forall_forall in Hall. apply Hall, in_map, Hin.
      * unfold hasStep in Gy. rewrite Z.eqb_refl in Gy. discriminate.
Qed.

Lemma removeFile_absent (u : string) (fs : list string) :
  existsb (String.eqb u) fs = false -> removeFile u fs = fs.
Proof.
  unfold removeFile. induction fs as [|f fs IH]; cbn; intros H;
    [reflexivity|].
  apply orb_false_iff in H. destruct H as [H1 H2].
  rewrite H1. cbn. f_equal. apply IH, H2.
Qed.

(** Adding a video for a step that has none and removing that step again,
    both without a failing call, gives back the list as it was (when it
    had one entry per step in ascending order) and, when the new file
    name was not taken, the files as they were. *)
Theorem add_then_remove_restores (s : VideoStore) (n : Z)
  (src name : string) (now : Z) :
  StoreInv (videos s) ->
  getVideoByStep n s = None ->
  let v := newVideoOf (VIDEO_DIR s) n name now in
  let s2 := run (removeVideo n all_io)
              (run (addVideo n src name now all_io) s) in
  videos s2 = videos s /\
  stored s2 = Some (videos s) /\
  (fileExists (uri v) s = false -> files s2 = files s).
Proof.
  intros [N S] G v s2. unfold getVideoByStep in G.
  assert (Hno : forall w, In w (videos s) -> stepNumber w <> n)
    by (apply find_none_iff; exact G).
  assert (F : filter (fun w => negb (hasStep n w)) (videos s) = videos s).
  { apply filter_all_kept. intros w Hw. unfold hasStep.
    destruct (Z.eqb_spec (stepNumber w) n) as [E|E]; [|reflexivity].
    exfalso. apply (Hno w Hw E). }
  assert (A : addedTo (videos s) v = js_sort byStep (videos s ++ [v])).
  { unfold addedTo. change (stepNumber v) with n. rewrite F. reflexivity. }
  assert (D : filter (fun w => negb (hasStep n w)) (addedTo (videos s) v)
              = videos s).
  { rewrite A. apply (sort_then_drop v (videos s) S). exact Hno. }
  assert (Fv : find (hasStep n) (addedTo (videos s) v) = Some v).
  { rewrite find_filter_head. change n with (stepNumber v).
    rewrite StoreFacts.addedTo_single. reflexivity. }
  unfold s2, run, addVideo, removeVideo, store_updated, deleteAsync, setItem,
    bind, modify, throw, ret, all_io.
  destruct s as [vs il dir fs st]. cbn in *. fold v.
  rewrite G. cbn. rewrite Fv. cbn. rewrite D.
  split; [reflexivity|]. split; [reflexivity|].
  intros Hf. unfold fileExists in Hf. cbn in Hf.
  rewrite String.eqb_refl. cbn [negb].
  apply removeFile_absent. exact Hf.
Qed.

Lemma add_then_remove_example :
  let s := two_videos in
  videos (run (removeVideo 3 all_io)
            (run (addVideo 3 "file:///picked/d.mov" "d.mov" 1700000000400
                    all_io) s)) = videos s.
Proof.
  cbv zeta.
  assert (I : StoreInv (videos two_videos)).
  { apply (proj1 (StoreFacts.reach_inv "file:///data/" two_videos
      ltac:(unfold two_videos; repeat apply R_add; apply R_initial))). }
  exact (proj1 (add_then_remove_restores two_videos 3 "file:///picked/d.mov"
                  "d.mov" 1700000000400 I eq_refl)).
Defined.

(** *** Failing calls *)

(** What a failing call of [addVideo] leaves behind.  A rejected copy
    leaves everything as it was.  When the copy resolves but the deletion
    of the replaced file rejects, the list and the storage are as before
    while the copied file stays on the device, listed nowhere.  When only
    [setItem] rejects, the list is already updated and the storage still
    holds the old list. *)
Theorem addVideo_failures (s : VideoStore) (n : Z) (src name : string)
  (now : Z) (io : IoEnv) (old : VideoStep) :
  let v := newVideoOf (VIDEO_DIR s) n name now in
  let s' := run (addVideo n src name now io) s in
  (copy_ok io = false -> s' = s) /\
  (copy_ok io = true -> getVideoByStep n s = Some old ->
   delete_ok io = false ->
   videos s' = videos s /\ stored s' = stored s /\
   files s' = uri v :: files s) /\
  (copy_ok io = true -> delete_ok io = true -> setItem_ok io = false ->
   videos s' = addedTo (videos s) v /\ stored s' = stored s) /\
  (copy_ok io = true -> delete_ok io = true -> setItem_ok io = true ->
   videos s' = addedTo (videos s) v /\ stored s' = Some (videos s')).
Proof.
  cbv zeta.
  unfold getVideoByStep, run, addVideo, store_updated, deleteAsync, setItem,
    bind, modify, throw, ret.
  destruct s as [vs il dir fs st]. destruct io as [c d si gi inf].
  cbn [videos files stored copy_ok delete_ok setItem_ok VIDEO_DIR
       documentDirectory].
  destruct c, d, si; cbn; destruct (find _ vs) as [e|]; cbn;
    (split; [intros C; try discriminate C; reflexivity|]);
    (split; [intros C E D; try discriminate C; try discriminate E;
             try discriminate D; now auto|]);
    split; intros C D Si; try discriminate C; try discriminate D;
    try discriminate Si; now auto.
Qed.

Lemma addVideo_delete_rejected_example :
  let s := two_videos in
  let s' := run (addVideo 1 "file:///picked/c.mov" "c.mov" 1700000000300
                   (mkIo true false true true true)) s in
  videos s' = videos s /\
  fileExists "file:///data/videos/step_1_1700000000300.mov" s' = true.
Proof.
  cbv zeta.
  destruct (addVideo_failures two_videos 1 "file:///picked/c.mov" "c.mov"
              1700000000300 (mkIo true false true true true)
              (newVideoOf (VIDEO_DIR two_videos) 1 "a.mov" 1700000000200))
    as (_ & H & _).
  destruct (H eq_refl eq_refl eq_refl) as (Hv & _ & Hf).
  split; [exact Hv|]. unfold fileExists. rewrite Hf. reflexivity.
Defined.

(** *** Files of the listed videos *)

Lemma addVideo_files (s : VideoStore) (n : Z) (src name : string) (now : Z)
  (io : IoEnv) :
  files (run (addVideo n src name now io) s)
    = if copy_ok io
      then match find (hasStep n) (videos s) with
           | Some e =>
               if delete_ok io
               then removeFile (uri e)
                      (uri (newVideoOf (VIDEO_DIR s) n name now) :: files s)
               else uri (newVideoOf (VIDEO_DIR s) n name now) :: files s
           | None => uri (newVideoOf (VIDEO_DIR s) n name now) :: files s
           end
      else files s.
Proof.
  unfold run, addVideo, store_updated, deleteAsync, setItem, bind, modify,
    throw, ret.
  destruct s as [vs il dir fs st]. destruct io as [c d si gi inf].
  cbn [videos files stored copy_ok delete_ok setItem_ok fst snd with_files].
  destruct c; cbn; [|reflexivity].
  destruct (find (hasStep n) vs); cbn; [destruct d; cbn|];
    try reflexivity; destruct si; reflexivity.
Qed.

Lemma removeVideo_files (n : Z) (io : IoEnv) (s : VideoStore) :
  files (run (removeVideo n io) s)
    = match find (hasStep n) (videos s) with
      | Some e => if delete_ok io then removeFile (uri e) (files s)
                  else files s
      | None => files s
      end.
Proof.
  unfold run, removeVideo, store_updated, deleteAsync, setItem, bind, modify,
    throw, ret.
  destruct s as [vs il dir fs st]. destruct io as [c d si gi inf]. cbn.
  destruct (find (hasStep n) vs); cbn; [destruct d; cbn|];
    try reflexivity; destruct si; reflexivity.
Qed.

Lemma removeFile_keeps (u f : string) (fs : list string) :
  f <> u -> existsb (String.eqb f) fs = true ->
  existsb (String.eqb f) (removeFile u fs) = true.
Proof.
  intros Hne. unfold removeFile.
  induction fs as [|g fs IH]; cbn; [auto|]. intros H.
  apply orb_true_iff in H.
  destruct (String.eqb_spec u g) as [E|E]; cbn.
  - destruct H as [H|H]; [|apply IH; exact H].
    apply String.eqb_eq in H. congruence.
  - apply orb_true_iff. destruct H as [H|H]; [left; exact H|right; auto].
Qed.

Lemma uri_determines_video (l : list VideoStep) (w e : VideoStep) :
  NoDup (map uri l) -> In w l -> In e l -> uri w = uri e -> w = e.
Proof.
  induction l as [|x l IH]; [contradiction|].
  cbn. intros N Hw He E. inversion N as [|? ? Hx N']; subst.
  destruct Hw as [->|Hw], He as [->|He]; try reflexivity.
  - exfalso. apply Hx. rewrite E. apply in_map. exact He.
  - exfalso. apply Hx. rewrite <- E. apply in_map. exact Hw.
  - apply IH; assumption.
Qed.

Lemma filter_distinct_uris (f : VideoStep -> bool) (l : list VideoStep) :
  NoDup (map uri l) -> NoDup (map uri (filter f l)).
Proof.
  induction l as [|x l IH]; cbn; intros N; [exact N|].
  inversion N as [|? ? Hx N']; subst.
  destruct (f x); [|apply IH; exact N'].
  cbn. constructor; [|apply IH; exact N'].
  intros Hin. apply Hx. apply in_map_iff in Hin.
  destruct Hin as (y & Ey & Hy). apply filter_In in Hy.
  rewrite <- Ey. apply in_map. tauto.
Qed.

Lemma addedTo_members (l : list VideoStep) (v w : VideoStep) :
  In w (addedTo l v) ->
  w = v \/ (In w l /\ stepNumber w <> stepNumber v).
Proof.
  intros Hw. unfold addedTo in Hw.
  apply (Permutation_in _ (StoreFacts.js_sort_perm _)) in Hw.
  apply in_app_or in Hw. destruct Hw as [Hw|[<-|[]]]; [right|left; auto].
  apply filter_In in Hw. destruct Hw as [Hw Hs]. split; [exact Hw|].
  unfold hasStep in Hs.
  destruct (Z.eqb_spec (stepNumber w) (stepNumber v));
    [discriminate|assumption].
Qed.

Lemma addedTo_distinct_uris (l : list VideoStep) (v : VideoStep) :
  NoDup (map uri l) -> ~ In (uri v) (map uri l) ->
  NoDup (map uri (addedTo l v)).
Proof.
  intros N Fresh. unfold addedTo.
  apply (Permutation_NoDup
           (Permutation_sym
              (Permutation_map uri (StoreFacts.js_sort_perm _)))).
  rewrite map_app. cbn [map].
  apply (Permutation_NoDup (Permutation_cons_append _ _)).
  constructor; [|apply filter_distinct_uris; exact N].
  intros Hin. apply Fresh. apply in_map_iff in Hin.
  destruct Hin as (y & Ey & Hy). apply filter_In in Hy.
  rewrite <- Ey. apply in_map. tauto.
Qed.

Lemma addVideo_keeps_files (s : VideoStore) (n : Z) (src name : string)
  (now : Z) (io : IoEnv) :
  FilesPresent s ->
  ~ In (uri (newVideoOf (VIDEO_DIR s) n name now)) (map uri (videos s)) ->
  FilesPresent (run (addVideo n src name now io) s).
Proof.
  intros [P N] Fresh. set (v := newVideoOf (VIDEO_DIR s) n name now) in *.
  unfold FilesPresent, fileExists.
  rewrite StoreFacts.addVideo_videos, addVideo_files. fold v.
  unfold reaches_set. unfold fileExists in P.
  destruct (copy_ok io); cbn [andb]; [|split; assumption].
  destruct (find (hasStep n) (videos s)) as [e|] eqn:Fe.
  - apply find_some in Fe. destruct Fe as [He Hse].
    unfold hasStep in Hse. apply Z.eqb_eq in Hse.
    destruct (delete_ok io).
    + split; [|apply addedTo_distinct_uris; assumption].
      intros w Hw. destruct (addedTo_members _ _ _ Hw) as [->|[Hw' Hn]].
      * apply removeFile_keeps; [|cbn; rewrite String.eqb_refl; reflexivity].
        intros E. apply Fresh. rewrite E. apply in_map. exact He.
      * apply removeFile_keeps.
        -- intros E. apply Hn. change (stepNumber v) with n.
           rewrite <- Hse. f_equal.
           apply (uri_determines_video (videos s)); assumption.
        -- cbn. apply orb_true_iff. right. apply (P w Hw').
    + split; [|exact N]. intros w Hw. cbn.
      apply orb_true_iff. right. apply (P w Hw).
  - split; [|apply addedTo_distinct_uris; assumption].
    intros w Hw. cbn. destruct (addedTo_members _ _ _ Hw) as [->|[Hw' _]].
    + rewrite String.eqb_refl. reflexivity.
    + apply orb_true_iff. right. apply (P w Hw').
Qed.

Lemma removeVideo_keeps_files (s : VideoStore) (n : Z) (io : IoEnv) :
  FilesPresent s -> FilesPresent (run (removeVideo n io) s).
Proof.
  intros [P N]. unfold FilesPresent, fileExists.
  rewrite StoreFacts.removeVideo_videos, removeVideo_files.
  unfold fileExists in P.
  destruct (find (hasStep n) (videos s)) as [e|] eqn:Fe.
  - apply find_some in Fe. destruct Fe as [He Hse].
    unfold hasStep in Hse. apply Z.eqb_eq in Hse.
    destruct (delete_ok io); [|split; assumption].
    split; [|apply filter_distinct_uris; exact N].
    intros w Hw. apply filter_In in Hw. destruct Hw as [Hw Hs].
    apply removeFile_keeps; [|apply (P w Hw)].
    intros E. unfold hasStep in Hs.
    assert (w = e) by (apply (uri_determines_video (videos s)); assumption).
    subst w. rewrite Hse, Z.eqb_refl in Hs. discriminate.
  - split; [|apply filter_distinct_uris; exact N].
    intros w Hw. apply filter_In in Hw. apply (P w (proj1 Hw)).
Qed.

(** Every listed video keeps its file.  When every listed video has its
    own file on the device, this is still so after [addVideo] under a file
    name that no listed video has, and after [removeVideo], whichever of
    their awaited calls reject: the only file deleted is that of the entry
    that leaves the list. *)
Theorem listed_videos_keep_their_files (s : VideoStore) (n : Z)
  (src name : string) (now : Z) (io : IoEnv) :
  FilesPresent s ->
  (~ In (uri (newVideoOf (VIDEO_DIR s) n name now)) (map uri (videos s)) ->
   FilesPresent (run (addVideo n src name now io) s)) /\
  FilesPresent (run (removeVideo n io) s).
Proof.
  intros P. split.
  - apply addVideo_keeps_files. exact P.
  - apply removeVideo_keeps_files. exact P.
Qed.

Lemma two_videos_files_present : FilesPresent two_videos.
Proof.
  split.
  - intros v Hv. vm_compute in Hv.
    destruct Hv as [<-|[<-|[]]]; vm_compute; reflexivity.
  - vm_compute. repeat constructor; cbn; intuition discriminate.
Qed.

Lemma listed_videos_keep_files_example :
  let s' := run (addVideo 1 "file:///picked/c.mov" "c.mov" 1700000000300
                   all_io) two_videos in
  FilesPresent s' /\
  fileExists "file:///data/videos/step_1_1700000000200.mov" s' = false.
Proof.
  cbv zeta. split; [|vm_compute; reflexivity].
  apply (proj1 (listed_videos_keep_their_files two_videos 1
                  "file:///picked/c.mov" "c.mov" 1700000000300 all_io
                  two_videos_files_present)).
  vm_compute. intuition discriminate.
Defined.

(** *** Restarts *)

Lemma addVideo_persisted (s : VideoStore) (n : Z) (src name : string)
  (now : Z) :
  stored (run (addVideo n src name now all_io) s)
    = Some (videos (run (addVideo n src name now all_io) s)).
Proof.
  unfold run, addVideo, store_updated, deleteAsync, setItem, bind, modify,
    throw, ret, all_io.
  destruct s as [vs il dir fs st].
  cbn [videos files stored copy_ok delete_ok setItem_ok fst snd with_files].
  destruct (find (hasStep n) vs); reflexivity.
Qed.

(** A video that was added is there after a restart.  When every listed
    video has its own file on the device and the new file name is not one
    of theirs, then after an [addVideo] without a failing call, closing the
    application and running [loadVideos] again gives the same list, the
    new video included. *)
Theorem added_video_survives_restart (s : VideoStore) (n : Z)
  (src name : string) (now : Z) :
  FilesPresent s ->
  let v := newVideoOf (VIDEO_DIR s) n name now in
  ~ In (uri v) (map uri (videos s)) ->
  let s' := run (addVideo n src name now all_io) s in
  let s2 := run (loadVideos all_io) (restart s') in
  videos s2 = videos s' /\
  getVideoByStep n s2 = Some v /\
  isLoading s2 = false.
Proof.
  intros P v Fresh s' s2.
  assert (Ev : videos s' = addedTo (videos s) v).
  { unfold s'. rewrite StoreFacts.addVideo_videos.
    unfold reaches_set, all_io. cbn.
    destruct (find (hasStep n) (videos s)); reflexivity. }
  assert (Es : stored s' = Some (videos s'))
    by apply addVideo_persisted.
  destruct (addVideo_keeps_files s n src name now all_io P Fresh)
    as [Pf _]. fold s' in Pf.
  assert (E2 : videos s2 = videos s' /\ isLoading s2 = false).
  { unfold s2, run, loadVideos, try_catch, try_catch_finally, bind, modify,
      throw, ret, all_io, restart. cbn.
    rewrite Es. cbn. split; [|reflexivity].
    apply filter_all_kept. intros w Hw.
    specialize (Pf w Hw). unfold fileExists in *. cbn. exact Pf. }
  destruct E2 as [E2 L2].
  split; [exact E2|]. split; [|exact L2].
  unfold getVideoByStep. rewrite E2, Ev, find_filter_head.
  change n with (stepNumber v).
  rewrite StoreFacts.addedTo_single. reflexivity.
Qed.

Lemma added_video_survives_example :
  let s' := run (addVideo 3 "file:///picked/d.mov" "d.mov" 1700000000400
                   all_io) two_videos in
  map stepNumber (videos (run (loadVideos all_io) (restart s')))
    = [1; 2; 3]%Z.
Proof.
  cbv zeta.
  destruct (added_video_survives_restart two_videos 3 "file:///picked/d.mov"
              "d.mov" 1700000000400 two_videos_files_present) as (H & _).
  - vm_compute. intuition discriminate.
  - rewrite H. vm_compute. reflexivity.
Defined.

(** *** The extension of the stored file *)

Lemma has_dot_app (a b : string) :
  has_dot (a ++ b) = has_dot a || has_dot b.
Proof.
  induction a as [|c a IH]; cbn; [reflexivity|].
  rewrite IH. apply orb_assoc.
Qed.

Lemma last_segment_no_dot (name acc : string) :
  has_dot acc = false -> has_dot (last_segment name acc) = false.
Proof.
  revert acc. induction name as [|c name IH]; cbn; intros acc H; [exact H|].
  destruct (Ascii.eqb c ".") eqn:E.
  - apply IH. reflexivity.
  - apply IH. rewrite has_dot_app. cbn. rewrite H, E. reflexivity.
Qed.

Lemma last_segment_whole (name acc : string) :
  has_dot name = false -> last_segment name acc = (acc ++ name)%string.
Proof.
  revert acc. induction name as [|c name IH]; cbn; intros acc H.
  - induction acc as [|a acc IHa]; cbn; [reflexivity|]. f_equal. exact IHa.
  - apply orb_false_iff in H. destruct H as [H1 H2]. rewrite H1.
    rewrite (IH _ H2). clear.
    induction acc as [|a acc IHa]; cbn; [reflexivity|]. f_equal. exact IHa.
Qed.

(** The extension [addVideo] gives the stored file is never empty and has
    no dot in it; for an original name without a dot it is the whole name
    ([mp4] when the name is empty). *)
Theorem extension_is_a_plain_suffix (originalName : string) :
  extension_of originalName <> EmptyString /\
  has_dot (extension_of originalName) = false /\
  (has_dot originalName = false -> originalName <> EmptyString ->
   extension_of originalName = originalName).
Proof.
  unfold extension_of.
  destruct (String.eqb_spec (last_segment originalName EmptyString)
              EmptyString) as [E|E].
  - split; [discriminate|]. split; [reflexivity|].
    intros H Hne. rewrite (last_segment_whole _ _ H) in E.
    cbn in E. contradiction.
  - split; [exact E|]. split; [apply last_segment_no_dot; reflexivity|].
    intros H _. exact (last_segment_whole originalName EmptyString H).
Qed.

Lemma extension_example :
  extension_of "clip" = "clip"%string /\
  extension_of "holiday.2024.MOV" = "MOV"%string /\
  extension_of "clip." = "mp4"%string.
Proof.
  split; [|vm_compute; auto].
  apply (proj2 (proj2 (extension_is_a_plain_suffix "clip")));
    [reflexivity|discriminate].
Defined.

End StoreMore.

(* ------------------------------------------------------------------ *)
(** ** More about the step list application *)

Module StepsFacts.

Import Steps.

(** *** The loading screen *)

Lemma even_step (p : nat) :
  Nat.even p = true -> p < 100 ->
  Nat.even (p + 2) = true /\ (100 <= p + 2 -> p + 2 = 100).
Proof.
  intros E L. apply Nat.even_spec in E. destruct E as [m ->]. split.
  - apply Nat.even_spec. exists (m + 1). lia.
  - lia.
Qed.

Lemma tick_no_interval (k : nat) (s : App) :
  intervals s = [] -> tick k s = s.
Proof.
  intros E. unfold tick. rewrite E. destruct k; reflexivity.
Qed.

Lemma tick_keeps_inv (k : nat) (s : App) : LoadingInv s -> LoadingInv (tick k s).
Proof.
  intros I. unfold LoadingInv in I.
  destruct (currentScreen s) eqn:Sc.
  - rewrite tick_no_interval by tauto. unfold LoadingInv. rewrite Sc. exact I.
  - destruct I as [C [(R & Iv & L & Ev)|(R & Iv & P)]].
    + destruct (even_step _ Ev L) as [Ev' Top].
      destruct k as [|k].
      2: { assert (tick (S k) s = s) as ->
             by (unfold tick; rewrite Iv; destruct k; reflexivity).
           unfold LoadingInv. rewrite Sc. auto 6. }
      unfold tick. rewrite Iv. cbn [nth_error].
      destruct (Nat.leb_spec 100 (progress s + 2)) as [H|H];
        unfold LoadingInv; destruct s; cbn in *; subst.
      * split; [reflexivity|]. right. auto.
      * split; [reflexivity|]. left. auto.
    + rewrite tick_no_interval by exact Iv.
      unfold LoadingInv. rewrite Sc. auto.
  - rewrite tick_no_interval by tauto. unfold LoadingInv. rewrite Sc. exact I.
Qed.

Lemma handleStart_from_index (s : App) :
  LoadingInv s -> currentScreen s = index ->
  (0 <? List.length (videos s)) = true ->
  let s0 := handleStart s in
  currentScreen s0 = loading /\ progress s0 = 0 /\ isReady s0 = false /\
  intervals s0 = [0] /\ currentIndex s0 = 0 /\ store s0 = store s.
Proof.
  intros I Sc V. unfold LoadingInv in I. rewrite Sc in I.
  destruct I as (P & R & C & Iv). unfold handleStart.
  apply Nat.ltb_lt in V.
  destruct (Nat.eqb_spec (List.length (videos s)) 0) as [E|E]; [lia|].
  destruct s; cbn in *; subst. auto 6.
Qed.

Lemma reach_loading_inv (dir : string) (s : App) :
  Reach dir s -> LoadingInv s.
Proof.
  induction 1 as [|s st u _ IH|s _ IH Sc|s _ IH Sc V|s k _ IH
                  |s _ IH Sc R|s _ IH Sc].
  - cbn. auto.
  - destruct s; exact IH.
  - destruct s; exact IH.
  - destruct (handleStart_from_index s IH Sc V) as (A & B & C & D & E & _).
    unfold LoadingInv. rewrite A, B, C, D, E. split; [reflexivity|].
    left. repeat split. lia.
  - apply tick_keeps_inv. exact IH.
  - unfold LoadingInv in IH. rewrite Sc in IH.
    destruct IH as [C [(R' & _)|(_ & Iv & P)]]; [congruence|].
    unfold LoadingInv, pressStart. destruct s; cbn in *. auto.
  - unfold LoadingInv in IH. rewrite Sc in IH. destruct IH as (R & P & Iv).
    unfold LoadingInv, handleTap.
    destruct (currentIndex s + 1 <? List.length (videos s));
      destruct s; cbn in *; subst; auto.
Qed.

(** Whatever the user, the timers and the store do: the progress shown
    never exceeds 100, at most one interval is running, and one is running
    only on the loading screen while the START button is not offered;
    START is offered ([isReady]) only at 100 percent; the player screen is
    shown only after that; and on the upload screen progress and position
    are back at 0. *)
Theorem loading_state_invariant (dir : string) (s : App) :
  Reach dir s ->
  progress s <= 100 /\
  List.length (intervals s) <= 1 /\
  (intervals s <> [] -> currentScreen s = loading /\ isReady s = false) /\
  (isReady s = true -> progress s = 100) /\
  (currentScreen s = player -> isReady s = true) /\
  (currentScreen s = index ->
   progress s = 0 /\ currentIndex s = 0 /\ isReady s = false).
Proof.
  intros R. pose proof (reach_loading_inv dir s R) as I.
  unfold LoadingInv in I.
  destruct (currentScreen s).
  - destruct I as (P & Rd & C & Iv). rewrite P, Rd, Iv. cbn.
    repeat split; try lia; try congruence; try discriminate.
  - destruct I as [C [(Rd & Iv & L & Ev)|(Rd & Iv & P)]];
      rewrite Rd, Iv; cbn;
      repeat split; try lia; try congruence; try discriminate.
  - destruct I as (Rd & P & Iv). rewrite P, Rd, Iv. cbn.
    repeat split; try lia; try congruence; try discriminate.
Qed.

Lemma loading_state_example :
  let s := pressStart
             (Nat.iter 50 (tick 0)
                (handleStart (showing three_clips (initial "file:///data/"))))
  in
  currentScreen s = player /\ progress s = 100 /\ intervals s = [].
Proof.
  cbv zeta.
  assert (R0 : Reach "file:///data/"
                 (handleStart (showing three_clips (initial "file:///data/")))).
  { apply R_start; [|reflexivity|reflexivity].
    apply (R_store _ _ (Store.with_videos three_clips
                          (Store.initial "file:///data/")) None).
    apply R_initial. }
  assert (R50 : Reach "file:///data/"
                  (Nat.iter 50 (tick 0)
                     (handleStart
                        (showing three_clips (initial "file:///data/"))))).
  { generalize 50. intros k. induction k as [|k IH]; [exact R0|].
    rewrite Nat.iter_succ. apply R_tick. exact IH. }
  assert (R : Reach "file:///data/"
                (pressStart
                   (Nat.iter 50 (tick 0)
                      (handleStart
                         (showing three_clips (initial "file:///data/")))))).
  { apply R_pressStart; [exact R50| |]; vm_compute; reflexivity. }
  destruct (loading_state_invariant _ _ R) as (_ & _ & _ & H4 & H5 & _).
  split; [vm_compute; reflexivity|].
  split; [apply H4, H5; vm_compute; reflexivity|vm_compute; reflexivity].
Defined.

Lemma ticks_before_ready (s0 : App) :
  intervals s0 = [0] -> progress s0 = 0 ->
  forall k, k < 50 ->
    Nat.iter k (tick 0) s0
      = with_intervals [2 * k] (with_progress (2 * k) s0).
Proof.
  intros Iv P0. induction k as [|k IH]; intros L.
  - cbn. destruct s0; cbn in *. subst. reflexivity.
  - rewrite Nat.iter_succ. rewrite IH by lia. unfold tick.
    cbn [intervals with_intervals with_progress nth_error].
    destruct (Nat.leb_spec 100 (2 * k + 2)) as [H|H]; [lia|].
    unfold with_intervals, with_progress. cbn [update_nth].
    destruct s0; cbn. do 2 f_equal; lia.
Qed.

(** From the upload screen with at least one video, [handleStart] shows
    the loading screen; the [k]-th firing of its interval shows [2 * k]
    percent; the 50th shows 100, clears the interval and offers START;
    later firings do not happen (a cleared interval changes nothing). *)
Theorem fifty_ticks_make_ready (dir : string) (s : App) :
  Reach dir s -> currentScreen s = index ->
  (0 <? List.length (videos s)) = true ->
  let after k := Nat.iter k (tick 0) (handleStart s) in
  (forall k, k < 50 ->
     currentScreen (after k) = loading /\ progress (after k) = 2 * k /\
     isReady (after k) = false) /\
  (currentScreen (after 50) = loading /\ progress (after 50) = 100 /\
   isReady (after 50) = true /\ intervals (after 50) = []) /\
  (forall k j, 50 <= k -> tick j (after k) = after 50).
Proof.
  intros R Sc V after. subst after. cbv beta.
  destruct (handleStart_from_index s (reach_loading_inv dir s R) Sc V)
    as (A & B & C & D & _).
  pose proof (ticks_before_ready (handleStart s) D B) as Before.
  assert (At50 : Nat.iter 50 (tick 0) (handleStart s)
            = with_isReady true
                (with_intervals [] (with_progress 100 (handleStart s)))).
  { rewrite Nat.iter_succ, Before by lia. reflexivity. }
  split; [|split].
  - intros k L. rewrite (Before k L). cbn. rewrite A, C. auto.
  - rewrite At50. cbn. rewrite A. auto.
  - assert (Stay : forall k, 50 <= k ->
              Nat.iter k (tick 0) (handleStart s)
                = Nat.iter 50 (tick 0) (handleStart s)).
    { intros k L. induction L as [|k L IH]; [reflexivity|].
      rewrite Nat.iter_succ, IH, At50.
      apply tick_no_interval. reflexivity. }
    intros k j L. rewrite (Stay k L), At50.
    apply tick_no_interval. reflexivity.
Qed.

Lemma fifty_ticks_example :
  let s := showing three_clips (initial "file:///data/") in
  progress (Nat.iter 20 (tick 0) (handleStart s)) = 40 /\
  isReady (Nat.iter 50 (tick 0) (handleStart s)) = true.
Proof.
  cbv zeta.
  assert (R : Reach "file:///data/"
                (showing three_clips (initial "file:///data/"))).
  { apply (R_store _ _ (Store.with_videos three_clips
                          (Store.initial "file:///data/")) None).
    apply R_initial. }
  destruct (fifty_ticks_make_ready _ _ R eq_refl eq_refl)
    as (H1 & (_ & _ & H2 & _) & _).
  split; [|exact H2].
  destruct (H1 20 ltac:(lia)) as (_ & H & _). exact H.
Defined.

(** *** The player screen *)

Lemma handleTap_advances (s : App) :
  currentIndex s + 1 < List.length (videos s) ->
  handleTap s = with_currentIndex (currentIndex s + 1) s.
Proof.
  intros L. unfold handleTap.
  destruct (Nat.ltb_spec (currentIndex s + 1) (List.length (videos s)));
    [reflexivity|lia].
Qed.

Lemma handleTap_at_the_end (s : App) :
  List.length (videos s) <= currentIndex s + 1 ->
  handleTap s
    = with_progress 0
        (with_isReady false
           (with_currentIndex 0 (with_currentScreen index s))).
Proof.
  intros L. unfold handleTap.
  destruct (Nat.ltb_spec (currentIndex s + 1) (List.length (videos s)));
    [lia|reflexivity].
Qed.

Lemma taps_before_the_end (s : App) :
  forall k, currentIndex s + k < List.length (videos s) ->
    Nat.iter k handleTap s = with_currentIndex (currentIndex s + k) s.
Proof.
  induction k as [|k IH]; intros L.
  - cbn. rewrite Nat.add_0_r. destruct s; reflexivity.
  - rewrite Nat.iter_succ. rewrite IH by lia.
    rewrite handleTap_advances
      by (change (currentIndex s + k + 1 < List.length (videos s)); lia).
    replace (currentIndex s + S k) with (currentIndex s + k + 1) by lia.
    reflexivity.
Qed.

(** Taps on the player screen show the videos once, in order, and then
    return to the upload screen: with [n] videos and playback at the first
    one, [k < n] taps leave the player at video [k], and the [n]-th tap
    shows the upload screen with position and progress reset and START no
    longer offered.  The list is not played in a loop. *)
Theorem taps_show_each_video_once (s : App) :
  currentScreen s = player -> currentIndex s = 0 ->
  let n := List.length (videos s) in
  (forall k, k < n ->
     currentScreen (Nat.iter k handleTap s) = player /\
     currentIndex (Nat.iter k handleTap s) = k) /\
  (0 < n ->
   let e := Nat.iter n handleTap s in
   currentScreen e = index /\ currentIndex e = 0 /\ isReady e = false /\
   progress e = 0 /\ videos e = videos s).
Proof.
  intros Sc C n. split.
  - intros k L. rewrite taps_before_the_end by (rewrite C; exact L).
    cbn. rewrite Sc, C. auto.
  - intros L e.
    assert (E : e = with_progress 0
                      (with_isReady false
                         (with_currentIndex 0 (with_currentScreen index s)))).
    { unfold e. replace n with (S (n - 1)) by lia.
      rewrite Nat.iter_succ.
      rewrite taps_before_the_end by (rewrite C; fold n; lia).
      rewrite handleTap_at_the_end
        by (change (List.length (videos s) <= currentIndex s + (n - 1) + 1);
            fold n; lia).
      reflexivity. }
    rewrite E. cbn. auto.
Qed.

Lemma taps_show_each_video_example :
  let s := pressStart
             (Nat.iter 50 (tick 0)
                (handleStart (showing three_clips (initial "file:///data/"))))
  in
  currentIndex (Nat.iter 2 handleTap s) = 2 /\
  currentScreen (Nat.iter 3 handleTap s) = index.
Proof.
  cbv zeta.
  destruct (taps_show_each_video_once
              (pressStart
                 (Nat.iter 50 (tick 0)
                    (handleStart
                       (showing three_clips (initial "file:///data/")))))
              ltac:(vm_compute; reflexivity) ltac:(vm_compute; reflexivity))
    as (H1 & H2).
  split.
  - apply (H1 2). vm_compute. lia.
  - apply H2. vm_compute. lia.
Defined.

(** *** The layers *)

Lemma rerender_calls_pointwise (t c c' : nat) (vs : list Store.VideoStep) :
  forall i,
    rerender_calls i (layers_from i t c vs) (layers_from i t c' vs)
      = flat_map (changed c c') (seq i (List.length vs)).
Proof.
  induction vs as [|v vs IH]; intros i; [reflexivity|].
  cbn [layers_from rerender_calls isActive List.length seq flat_map].
  rewrite IH. reflexivity.
Qed.

Lemma flat_map_nothing {X Y : Type} (f : X -> list Y) (l : list X) :
  (forall x, In x l -> f x = []) -> flat_map f l = [].
Proof.
  induction l as [|x l IH]; cbn; intros H; [reflexivity|].
  rewrite (H x) by auto. apply IH. auto.
Qed.

Lemma changed_elsewhere (c j : nat) :
  j <> c -> j <> c + 1 -> changed c (c + 1) j = [].
Proof.
  intros H1 H2. unfold changed.
  destruct (Nat.eqb_spec j c), (Nat.eqb_spec j (c + 1));
    try contradiction. reflexivity.
Qed.

Lemma active_layers_from (t c : nat) (vs : list Store.VideoStep) :
  forall i, i <= c ->
    filter isActive (layers_from i t c vs)
      = match nth_error vs (c - i) with
        | Some v =>
            [mkLayer (Store.id v) (Store.uri v) true
               (Z.of_nat t - Z.of_nat c)]
        | None => []
        end.
Proof.
  assert (None_after : forall ws i, c < i ->
            filter isActive (layers_from i t c ws) = []).
  { induction ws as [|w ws IH]; intros i L; [reflexivity|].
    cbn. destruct (Nat.eqb_spec i c); [lia|]. apply IH. lia. }
  induction vs as [|v vs IH]; intros i L.
  - destruct (c - i); reflexivity.
  - cbn [layers_from filter isActive].
    destruct (Nat.eqb_spec i c) as [E|E].
    + subst i. rewrite Nat.sub_diag. cbn [nth_error].
      rewrite None_after by lia. reflexivity.
    + rewrite IH by lia.
      replace (c - i) with (S (c - S i)) by lia. reflexivity.
Qed.

(** One layer plays at a time, and a tap hands playback over.  While the
    position is inside the list, exactly one layer of the player screen is
    active, the one of the video at [currentIndex]; after a tap that
    advances, the only calls made on the layers are [stopAsync] on the
    layer left and [playAsync] on the next one. *)
Theorem tap_hands_playback_to_next_layer (s : App) (v : Store.VideoStep) :
  nth_error (videos s) (currentIndex s + 1) = Some v ->
  let n := Z.of_nat (List.length (videos s)) in
  filter isActive (layers (handleTap s))
    = [mkLayer (Store.id v) (Store.uri v) true
         (n - Z.of_nat (currentIndex s + 1))] /\
  rerender_calls 0 (layers s) (layers (handleTap s))
    = [(currentIndex s, stopAsync); (currentIndex s + 1, playAsync)].
Proof.
  intros Hv n.
  assert (L : currentIndex s + 1 < List.length (videos s))
    by (apply nth_error_Some; congruence).
  pose proof (handleTap_advances s L) as T.
  rewrite T. unfold layers.
  change (videos (with_currentIndex (currentIndex s + 1) s)) with (videos s).
  change (currentIndex (with_currentIndex (currentIndex s + 1) s))
    with (currentIndex s + 1).
  split.
  - rewrite active_layers_from by lia. rewrite Nat.sub_0_r, Hv. reflexivity.
  - rewrite rerender_calls_pointwise.
    set (c := currentIndex s) in *.
    replace (List.length (videos s))
      with (c + (2 + (List.length (videos s) - c - 2))) by lia.
    rewrite seq_app, flat_map_app.
    rewrite flat_map_nothing
      by (intros j Hj; apply in_seq in Hj; apply changed_elsewhere; lia).
    cbn [seq flat_map Nat.add app].
    rewrite (flat_map_nothing (changed c (c + 1)))
      by (intros j Hj; apply in_seq in Hj; apply changed_elsewhere; lia).
    unfold changed, layer_effect.
    replace (S c) with (c + 1) by lia.
    rewrite !Nat.eqb_refl.
    destruct (Nat.eqb_spec c (c + 1)); [lia|].
    destruct (Nat.eqb_spec (c + 1) c); [lia|]. reflexivity.
Qed.

Lemma tap_hands_playback_example :
  let s := pressStart
             (Nat.iter 50 (tick 0)
                (handleStart (showing three_clips (initial "file:///data/"))))
  in
  map uri (filter isActive (layers (handleTap s)))
    = ["file:///data/videos/step_2_20.mp4"%string] /\
  rerender_calls 0 (layers s) (layers (handleTap s))
    = [(0, stopAsync); (1, playAsync)].
Proof.
  cbv zeta.
  destruct (tap_hands_playback_to_next_layer
              (pressStart
                 (Nat.iter 50 (tick 0)
                    (handleStart
                       (showing three_clips (initial "file:///data/")))))
              (Store.mkVideo "step_2_20" 2
                 "file:///data/videos/step_2_20.mp4" "b.mp4")
              ltac:(vm_compute; reflexivity)) as (H1 & H2).
  split; [rewrite H1; reflexivity|].
  rewrite H2. vm_compute. reflexivity.
Defined.

(** *** Uploads *)

Lemma addVideo_completes (n : Z) (src name : string) (now : Z)
  (io : Store.IoEnv) (st : Store.VideoStore) :
  fst (Store.addVideo n src name now io st) = Normal tt ->
  Store.reaches_set io n st = true.
Proof.
  unfold Store.reaches_set, Store.addVideo, Store.store_updated,
    Store.deleteAsync, Store.setItem, bind, modify, throw, ret.
  destruct st as [vs il dir fs sd]. destruct io as [c d si gi inf]. cbn.
  destruct c; cbn; [|discriminate].
  destruct (find (Store.hasStep n) vs); cbn; [destruct d; cbn|];
    try reflexivity; discriminate.
Qed.

(** An upload from the library.  When [handleUpload] runs to its end,
    [uploadingStep] is null again and the store has, for the step, the new
    video under the picked file name, or under [video.mp4] when the picker
    gave none; when [addVideo] rejects, [uploadingStep] stays at the step:
    nothing resets it. *)
Theorem library_upload_marks_the_step (s : App) (n : Z) (src : string)
  (fileName : option string) (now : Z) (io : Store.IoEnv) :
  let name := fileName_or_default fileName in
  let r := handleUpload n (Library (Some (src, fileName))) now io s in
  name <> EmptyString /\
  (fst r = Normal tt ->
   uploadingStep (snd r) = None /\
   Store.getVideoByStep n (store (snd r))
     = Some (Store.newVideoOf (Store.VIDEO_DIR (store s)) n name now)) /\
  (fst r = Thrown -> uploadingStep (snd r) = Some n).
Proof.
  intros name r. split.
  - unfold name, fileName_or_default, truthy.
    destruct fileName as [f|]; [|discriminate].
    destruct (String.eqb_spec f EmptyString); cbn; [discriminate|assumption].
  - pose proof (addVideo_completes n src name now io (store s)) as Hc.
    pose proof (StoreFacts.addVideo_videos n src name now io (store s)) as Hv.
    unfold run in Hv.
    unfold r, handleUpload, upload, on_store, bind, modify, throw, ret.
    fold name. cbn [store with_uploadingStep].
    destruct (Store.addVideo n src name now io (store s)) as [c st].
    cbn [fst snd] in *.
    destruct c as [[]|]; cbn; split; intros H; try discriminate H;
      [|reflexivity].
    split; [reflexivity|].
    unfold Store.getVideoByStep. rewrite Hv, (Hc eq_refl).
    rewrite StoreMore.find_filter_head.
    change n with
      (Store.stepNumber
         (Store.newVideoOf (Store.VIDEO_DIR (store s)) n name now)) at 1.
    rewrite StoreFacts.addedTo_single. reflexivity.
Qed.

Lemma library_upload_example :
  let s := initial "file:///data/" in
  let r := handleUpload 2 (Library (Some ("file:///picked/x"%string, None))) 77
             Store.all_io s in
  option_map Store.originalName (Store.getVideoByStep 2 (store (snd r)))
    = Some "video.mp4"%string /\
  uploadingStep
    (snd (handleUpload 2 (Library (Some ("file:///picked/x"%string, None))) 77
            (Store.mkIo false true true true true) s)) = Some 2%Z.
Proof.
  cbv zeta.
  destruct (library_upload_marks_the_step (initial "file:///data/") 2
              "file:///picked/x" None 77 Store.all_io) as (_ & H & _).
  destruct (H eq_refl) as (_ & H2).
  split; [rewrite H2; reflexivity|].
  destruct (library_upload_marks_the_step (initial "file:///data/") 2
              "file:///picked/x" None 77
              (Store.mkIo false true true true true)) as (_ & _ & H3).
  apply H3. reflexivity.
Defined.

End StepsFacts.
